(** * Live session controller of the doubt-chatbot front end

    A shallow embedding of [src/components/LiveSession.tsx] (with the
    single-slot hand-over of [src/context/AppContext.ts]) and the
    properties of its playback scheduler, transcript aggregation,
    teardown, summary generation, camera / screen toggles and
    shared-image ingestion.

    Conventions of the embedding.
    - React state cells ([useState]) and refs ([useRef]) are fields of
      one record, [Component].  A closure created during a render sees
      the state values of that render; the values a handler reads from
      its closure are passed to it explicitly as a [Closure].
    - The locals of [startSession] that its callbacks mutate
      ([nextStartTime], [sources]) form the record [Playback].
    - Calls into the browser or the remote service are recorded as a
      list of [Effect]s, in program order.
    - A handler runs from its first line to its last without another
      handler in between, with one exception: [startMediaStream]
      waits for the user to grant a capture device, so it is split at
      its [await] and other events may come in between.
      [toggleMicrophone] is split at its [await] in the same way.
      [onmessage] waits for the audio decoder: [onmessage] itself is
      the run that nothing overlaps, and [onmessage_begin],
      [onmessage_resume] and [overlappedRun] are its two halves and
      the runs in which several handlers wait at once.
    - JavaScript numbers that hold audio-clock times are modelled by
      rationals; the handlers only compare and add them. *)

From Stdlib Require Import Ascii String QArith Qminmax Lqa.
From stdpp Require Import base list strings.

Open Scope string_scope.
Open Scope list_scope.

(** ** Data model *)

(** [{user: string, model: string}], the element type of
    [transcription] and the type of [currentSpokenText]. *)
Record Turn := { user : string; model : string }.

Definition emptyTurn : Turn := {| user := ""; model := "" |}.

(** [SessionSummary] of [types.ts]. *)
Record SessionSummary := {
  id : string;
  title : string;
  content : string;
  date : string
}.

(** The shared image slot of [AppContext]: [{ data, mimeType }]. *)
Record SharedImage := { data : string; mimeType : string }.

(** Identities of browser objects. *)
Definition Stream := nat.   (* a MediaStream *)
Definition Handle := nat.   (* an AudioBufferSourceNode *)

(** How the promise held in [sessionPromiseRef] settles. *)
Inductive PromiseOutcome := Fulfilled | Rejected.

Inductive MediaType := camera | screen.

(** State cells and refs of the [LiveSession] component.
    [audioContextRef] holds [Some true] for a context whose state is
    not ['closed'] and [Some false] for a closed one.
    [frameIntervalRef] holds the handle returned by [setInterval],
    a positive integer.  [videoSrcObject] is
    [videoRef.current.srcObject]. *)
Record Component := {
  isSessionActive : bool;
  isMicOn : bool;
  isCameraOn : bool;
  isScreenOn : bool;
  isAnnotating : bool;
  status : string;
  transcription : list Turn;
  currentSpokenText : Turn;
  sessionPromiseRef : option PromiseOutcome;
  mediaStreamRef : option Stream;
  audioContextRef : option bool;
  scriptProcessorRef : bool;
  frameIntervalRef : option positive;
  videoSrcObject : option Stream
}.

(** The values of the [useState] initialisers and [useRef(null)]. *)
Definition initialComponent : Component := {|
  isSessionActive := false;
  isMicOn := false;
  isCameraOn := false;
  isScreenOn := false;
  isAnnotating := false;
  status := "Idle. Press Start to connect.";
  transcription := [];
  currentSpokenText := emptyTurn;
  sessionPromiseRef := None;
  mediaStreamRef := None;
  audioContextRef := None;
  scriptProcessorRef := false;
  frameIntervalRef := None;
  videoSrcObject := None
|}.

(** What a closure created while rendering state [c] captures. *)
Record Closure := {
  seen_isSessionActive : bool;
  seen_isCameraOn : bool;
  seen_isScreenOn : bool;
  seen_transcription : list Turn;
  seen_currentSpokenText : Turn
}.

Definition render (c : Component) : Closure := {|
  seen_isSessionActive := isSessionActive c;
  seen_isCameraOn := isCameraOn c;
  seen_isScreenOn := isScreenOn c;
  seen_transcription := transcription c;
  seen_currentSpokenText := currentSpokenText c
|}.

(** Locals of [startSession] shared by its callbacks.  [sources] is a
    JavaScript [Set]: no duplicates, insertion order.  [created]
    counts the nodes made by [createBufferSource], so that each new
    node has a new identity. *)
Record Playback := {
  nextStartTime : Q;
  sources : list Handle;
  created : nat
}.

(** [let nextStartTime = 0; const sources = new Set()]. *)
Definition initialPlayback : Playback :=
  {| nextStartTime := 0; sources := []; created := 0 |}.

(** Calls that leave the component. *)
Inductive Effect :=
| TrackStop (s : Stream)
| ClearInterval (i : positive)
| SessionClose
| ProcessorDisconnect
| AudioContextClose
| SendRealtimeInput (d m : string)
| SourceStart (h : Handle) (start : Q)
| SourceStop (h : Handle)
| OnSessionEnd (s : SessionSummary)
| RequestMedia (ty : MediaType).

(** ** JavaScript helpers *)

(** Truthiness of a string: every string but the empty one. *)
Definition truthy (s : string) : bool :=
  match s with
  | EmptyString => false
  | String _ _ => true
  end.

(** [a || b] on strings. *)
Definition or_else (a b : string) : string := if truthy a then a else b.

Definition nl : string := String "010"%char EmptyString.

(** [Array.prototype.join]. *)
Fixpoint join (sep : string) (l : list string) : string :=
  match l with
  | [] => ""
  | [x] => x
  | x :: rest => x +:+ sep +:+ join sep rest
  end.

(** [Set.prototype.add] and [Set.prototype.delete]. *)
Definition set_add (h : Handle) (s : list Handle) : list Handle :=
  if bool_decide (h ∈ s) then s else s ++ [h].

Definition set_delete (h : Handle) (s : list Handle) : list Handle :=
  filter (λ x, x ≠ h) s.

(** ** Summary generation: [generateAndSaveSummary] *)

(** How [JSON.parse] of the cleaned reply and the two field reads go. *)
Inductive ParseResult :=
| ParseThrows
| Parsed (parsedTitle parsedSummary : string).

(** How [ai.models.generateContent] goes. *)
Inductive GenerateOutcome :=
| GenerateThrows
| GenerateReturns (text : string) (parse : ParseResult).

(** What the summarizer's surroundings supply: [process.env.API_KEY],
    the two renderings of [new Date()], and the remote call. *)
Record SummaryEnv := {
  API_KEY : option string;
  isoNow : string;
  localNow : string;
  generate : GenerateOutcome
}.

Definition hasApiKey (e : SummaryEnv) : bool :=
  match API_KEY e with
  | Some k => truthy k
  | None => false
  end.

(** [fullTranscription.map(t => `User: ${t.user}\nGemini: ${t.model}`).join('\n\n')] *)
Definition transcriptLine (t : Turn) : string :=
  "User: " +:+ user t +:+ nl +:+ "Gemini: " +:+ model t.

Definition transcriptText (full : list Turn) : string :=
  join (nl +:+ nl) (map transcriptLine full).

Definition fallbackTitle : string := "Session Log (Summary Failed)".

(** The record handed to [onSessionEnd], if any. *)
Definition generateAndSaveSummary (e : SummaryEnv) (full : list Turn)
  : option SessionSummary :=
  if (length full =? 0)%nat || negb (hasApiKey e) then None
  else
    match generate e with
    | GenerateReturns text parse =>
        let result :=
          match parse with
          | Parsed t s => (or_else t "Session Summary", or_else s text)
          | ParseThrows => ("Session Summary", text)
          end in
        Some {| id := isoNow e; title := result.1;
                content := result.2; date := localNow e |}
    | GenerateThrows =>
        Some {| id := isoNow e; title := fallbackTitle;
                content := transcriptText full; date := localNow e |}
    end.

(** ** Writing one cell

    [setX v c] is [c] with cell [X] holding [v]: a [setState] call for
    a state cell, an assignment to [.current] for a ref. *)

Definition setIsSessionActive (v : bool) (c : Component) : Component :=
  {| isSessionActive := v;
     isMicOn := isMicOn c;
     isCameraOn := isCameraOn c;
     isScreenOn := isScreenOn c;
     isAnnotating := isAnnotating c;
     status := status c;
     transcription := transcription c;
     currentSpokenText := currentSpokenText c;
     sessionPromiseRef := sessionPromiseRef c;
     mediaStreamRef := mediaStreamRef c;
     audioContextRef := audioContextRef c;
     scriptProcessorRef := scriptProcessorRef c;
     frameIntervalRef := frameIntervalRef c;
     videoSrcObject := videoSrcObject c |}.

Definition setIsMicOn (v : bool) (c : Component) : Component :=
  {| isSessionActive := isSessionActive c;
     isMicOn := v;
     isCameraOn := isCameraOn c;
     isScreenOn := isScreenOn c;
     isAnnotating := isAnnotating c;
     status := status c;
     transcription := transcription c;
     currentSpokenText := currentSpokenText c;
     sessionPromiseRef := sessionPromiseRef c;
     mediaStreamRef := mediaStreamRef c;
     audioContextRef := audioContextRef c;
     scriptProcessorRef := scriptProcessorRef c;
     frameIntervalRef := frameIntervalRef c;
     videoSrcObject := videoSrcObject c |}.

Definition setIsCameraOn (v : bool) (c : Component) : Component :=
  {| isSessionActive := isSessionActive c;
     isMicOn := isMicOn c;
     isCameraOn := v;
     isScreenOn := isScreenOn c;
     isAnnotating := isAnnotating c;
     status := status c;
     transcription := transcription c;
     currentSpokenText := currentSpokenText c;
     sessionPromiseRef := sessionPromiseRef c;
     mediaStreamRef := mediaStreamRef c;
     audioContextRef := audioContextRef c;
     scriptProcessorRef := scriptProcessorRef c;
     frameIntervalRef := frameIntervalRef c;
     videoSrcObject := videoSrcObject c |}.

Definition setIsScreenOn (v : bool) (c : Component) : Component :=
  {| isSessionActive := isSessionActive c;
     isMicOn := isMicOn c;
     isCameraOn := isCameraOn c;
     isScreenOn := v;
     isAnnotating := isAnnotating c;
     status := status c;
     transcription := transcription c;
     currentSpokenText := currentSpokenText c;
     sessionPromiseRef := sessionPromiseRef c;
     mediaStreamRef := mediaStreamRef c;
     audioContextRef := audioContextRef c;
     scriptProcessorRef := scriptProcessorRef c;
     frameIntervalRef := frameIntervalRef c;
     videoSrcObject := videoSrcObject c |}.

Definition setIsAnnotating (v : bool) (c : Component) : Component :=
  {| isSessionActive := isSessionActive c;
     isMicOn := isMicOn c;
     isCameraOn := isCameraOn c;
     isScreenOn := isScreenOn c;
     isAnnotating := v;
     status := status c;
     transcription := transcription c;
     currentSpokenText := currentSpokenText c;
     sessionPromiseRef := sessionPromiseRef c;
     mediaStreamRef := mediaStreamRef c;
     audioContextRef := audioContextRef c;
     scriptProcessorRef := scriptProcessorRef c;
     frameIntervalRef := frameIntervalRef c;
     videoSrcObject := videoSrcObject c |}.

Definition setStatus (v : string) (c : Component) : Component :=
  {| isSessionActive := isSessionActive c;
     isMicOn := isMicOn c;
     isCameraOn := isCameraOn c;
     isScreenOn := isScreenOn c;
     isAnnotating := isAnnotating c;
     status := v;
     transcription := transcription c;
     currentSpokenText := currentSpokenText c;
     sessionPromiseRef := sessionPromiseRef c;
     mediaStreamRef := mediaStreamRef c;
     audioContextRef := audioContextRef c;
     scriptProcessorRef := scriptProcessorRef c;
     frameIntervalRef := frameIntervalRef c;
     videoSrcObject := videoSrcObject c |}.

Definition setTranscription (v : list Turn) (c : Component) : Component :=
  {| isSessionActive := isSessionActive c;
     isMicOn := isMicOn c;
     isCameraOn := isCameraOn c;
     isScreenOn := isScreenOn c;
     isAnnotating := isAnnotating c;
     status := status c;
     transcription := v;
     currentSpokenText := currentSpokenText c;
     sessionPromiseRef := sessionPromiseRef c;
     mediaStreamRef := mediaStreamRef c;
     audioContextRef := audioContextRef c;
     scriptProcessorRef := scriptProcessorRef c;
     frameIntervalRef := frameIntervalRef c;
     videoSrcObject := videoSrcObject c |}.

Definition setCurrentSpokenText (v : Turn) (c : Component) : Component :=
  {| isSessionActive := isSessionActive c;
     isMicOn := isMicOn c;
     isCameraOn := isCameraOn c;
     isScreenOn := isScreenOn c;
     isAnnotating := isAnnotating c;
     status := status c;
     transcription := transcription c;
     currentSpokenText := v;
     sessionPromiseRef := sessionPromiseRef c;
     mediaStreamRef := mediaStreamRef c;
     audioContextRef := audioContextRef c;
     scriptProcessorRef := scriptProcessorRef c;
     frameIntervalRef := frameIntervalRef c;
     videoSrcObject := videoSrcObject c |}.

Definition assign_sessionPromiseRef (v : option PromiseOutcome) (c : Component) : Component :=
  {| isSessionActive := isSessionActive c;
     isMicOn := isMicOn c;
     isCameraOn := isCameraOn c;
     isScreenOn := isScreenOn c;
     isAnnotating := isAnnotating c;
     status := status c;
     transcription := transcription c;
     currentSpokenText := currentSpokenText c;
     sessionPromiseRef := v;
     mediaStreamRef := mediaStreamRef c;
     audioContextRef := audioContextRef c;
     scriptProcessorRef := scriptProcessorRef c;
     frameIntervalRef := frameIntervalRef c;
     videoSrcObject := videoSrcObject c |}.

Definition assign_mediaStreamRef (v : option Stream) (c : Component) : Component :=
  {| isSessionActive := isSessionActive c;
     isMicOn := isMicOn c;
     isCameraOn := isCameraOn c;
     isScreenOn := isScreenOn c;
     isAnnotating := isAnnotating c;
     status := status c;
     transcription := transcription c;
     currentSpokenText := currentSpokenText c;
     sessionPromiseRef := sessionPromiseRef c;
     mediaStreamRef := v;
     audioContextRef := audioContextRef c;
     scriptProcessorRef := scriptProcessorRef c;
     frameIntervalRef := frameIntervalRef c;
     videoSrcObject := videoSrcObject c |}.

Definition assign_audioContextRef (v : option bool) (c : Component) : Component :=
  {| isSessionActive := isSessionActive c;
     isMicOn := isMicOn c;
     isCameraOn := isCameraOn c;
     isScreenOn := isScreenOn c;
     isAnnotating := isAnnotating c;
     status := status c;
     transcription := transcription c;
     currentSpokenText := currentSpokenText c;
     sessionPromiseRef := sessionPromiseRef c;
     mediaStreamRef := mediaStreamRef c;
     audioContextRef := v;
     scriptProcessorRef := scriptProcessorRef c;
     frameIntervalRef := frameIntervalRef c;
     videoSrcObject := videoSrcObject c |}.

Definition assign_scriptProcessorRef (v : bool) (c : Component) : Component :=
  {| isSessionActive := isSessionActive c;
     isMicOn := isMicOn c;
     isCameraOn := isCameraOn c;
     isScreenOn := isScreenOn c;
     isAnnotating := isAnnotating c;
     status := status c;
     transcription := transcription c;
     currentSpokenText := currentSpokenText c;
     sessionPromiseRef := sessionPromiseRef c;
     mediaStreamRef := mediaStreamRef c;
     audioContextRef := audioContextRef c;
     scriptProcessorRef := v;
     frameIntervalRef := frameIntervalRef c;
     videoSrcObject := videoSrcObject c |}.

Definition assign_frameIntervalRef (v : option positive) (c : Component) : Component :=
  {| isSessionActive := isSessionActive c;
     isMicOn := isMicOn c;
     isCameraOn := isCameraOn c;
     isScreenOn := isScreenOn c;
     isAnnotating := isAnnotating c;
     status := status c;
     transcription := transcription c;
     currentSpokenText := currentSpokenText c;
     sessionPromiseRef := sessionPromiseRef c;
     mediaStreamRef := mediaStreamRef c;
     audioContextRef := audioContextRef c;
     scriptProcessorRef := scriptProcessorRef c;
     frameIntervalRef := v;
     videoSrcObject := videoSrcObject c |}.

Definition assign_videoSrcObject (v : option Stream) (c : Component) : Component :=
  {| isSessionActive := isSessionActive c;
     isMicOn := isMicOn c;
     isCameraOn := isCameraOn c;
     isScreenOn := isScreenOn c;
     isAnnotating := isAnnotating c;
     status := status c;
     transcription := transcription c;
     currentSpokenText := currentSpokenText c;
     sessionPromiseRef := sessionPromiseRef c;
     mediaStreamRef := mediaStreamRef c;
     audioContextRef := audioContextRef c;
     scriptProcessorRef := scriptProcessorRef c;
     frameIntervalRef := frameIntervalRef c;
     videoSrcObject := v |}.

(** ** Teardown: [stopAllStreams] and [stopSession] *)

Definition stopAllStreams (c : Component) : Component * list Effect :=
  let (c1, e1) :=
    match mediaStreamRef c with
    | Some s => (assign_mediaStreamRef None c, [TrackStop s])
    | None => (c, [])
    end in
  let (c2, e2) :=
    match frameIntervalRef c1 with
    | Some i => (assign_frameIntervalRef None c1, [ClearInterval i])
    | None => (c1, [])
    end in
  (assign_videoSrcObject None c2, e1 ++ e2).

(** [[...transcription, ...(currentSpokenText.user ||
    currentSpokenText.model ? [currentSpokenText] : [])]], on the
    values the closure of [stopSession] sees. *)
Definition flushPending (cur : Turn) : option Turn :=
  if truthy (or_else (user cur) (model cur)) then Some cur else None.

Definition finalTranscription (k : Closure) : list Turn :=
  seen_transcription k ++ option_list (flushPending (seen_currentSpokenText k)).

(** [stopSession], run to its end.  [k] is the render whose
    [transcription] and [currentSpokenText] the [useCallback] closure
    holds. *)
Definition stopSession (e : SummaryEnv) (k : Closure) (c : Component)
  : Component * list Effect :=
  let c0 :=
    setIsAnnotating false (setIsScreenOn false (setIsCameraOn false
      (setIsMicOn false (setIsSessionActive false c)))) in
  let (c1, e1) := stopAllStreams c0 in
  let (c2, e2) :=
    match sessionPromiseRef c1 with
    | Some p =>
        (assign_sessionPromiseRef None c1,
         match p with Fulfilled => [SessionClose] | Rejected => [] end)
    | None => (c1, [])
    end in
  let (c3, e3) :=
    if scriptProcessorRef c2
    then (assign_scriptProcessorRef false c2, [ProcessorDisconnect])
    else (c2, []) in
  let (c4, e4) :=
    match audioContextRef c3 with
    | Some true => (assign_audioContextRef None c3, [AudioContextClose])
    | _ => (c3, [])
    end in
  let e5 :=
    match generateAndSaveSummary e (finalTranscription k) with
    | Some s => [OnSessionEnd s]
    | None => []
    end in
  (setStatus "Session ended."
     (setCurrentSpokenText emptyTurn (setTranscription [] c4)),
   e1 ++ e2 ++ e3 ++ e4 ++ e5).

(** The Stop button of the current render: its closure is [render c]. *)
Definition clickStop (e : SummaryEnv) (c : Component)
  : Component * list Effect :=
  stopSession e (render c) c.

(** ** Session start: [startSession] and [onopen] *)

(** The state written by [startSession]; [connect] is how the promise
    returned by [ai.live.connect] settles. *)
Definition startSession (apiKey : bool) (connect : PromiseOutcome)
    (c : Component) : Component :=
  if negb apiKey then setStatus "API Key not found." c
  else assign_sessionPromiseRef (Some connect) (setStatus "Connecting..." c).

Definition onopen (c : Component) : Component :=
  setStatus "Connected! Enable mic to start talking."
    (setIsSessionActive true c).

(** ** Inbound messages: [onmessage] *)

(** [message.serverContent?.modelTurn?.parts[0]?.inlineData?.data]
    after [decodeAudioData(decode(...))]: absent (or empty), present
    but rejected by the decoder, or decoded to a buffer of the given
    [duration]. *)
Inductive AudioPart :=
| NoAudio
| Undecodable
| Decoded (duration : Q).

(** The parts of a [LiveServerMessage] that [onmessage] reads. *)
Record ServerMessage := {
  outputTranscription : option string;
  inputTranscription : option string;
  turnComplete : bool;
  inlineAudio : AudioPart;
  interrupted : bool
}.

(** [setCurrentSpokenText(prev => ({...prev, model: prev.model + text}))] *)
Definition appendModelDelta (text : string) (c : Component) : Component :=
  setCurrentSpokenText
    {| user := user (currentSpokenText c);
       model := model (currentSpokenText c) +:+ text |} c.

(** [setCurrentSpokenText(prev => ({...prev, user: prev.user + text}))] *)
Definition appendUserDelta (text : string) (c : Component) : Component :=
  setCurrentSpokenText
    {| user := user (currentSpokenText c) +:+ text;
       model := model (currentSpokenText c) |} c.

(** [setTranscription(prev => [...prev, currentSpokenText]);
    setCurrentSpokenText({user: '', model: ''})]: the appended value
    is the [currentSpokenText] of the closure, not of [prev]. *)
Definition commitTurn (k : Closure) (c : Component) : Component :=
  setCurrentSpokenText emptyTurn
    (setTranscription (transcription c ++ [seen_currentSpokenText k]) c).

(** The audio branch up to [await decodeAudioData], line 250: the
    cursor is raised to the clock reading [now]
    ([outputAudioContext.currentTime]).  This is also all that is left
    of the branch when the decoder throws: nothing is scheduled and
    the handler ends there. *)
Definition enqueue_failed (now : Q) (p : Playback) : Playback :=
  {| nextStartTime := Qmax (nextStartTime p) now;
     sources := sources p;
     created := created p |}.

(** The audio branch after the [await], lines 252-258: the source is
    started at the cursor as it is when the handler resumes, and the
    cursor moves on by the buffer's duration. *)
Definition enqueue_resume (duration : Q) (p : Playback)
  : Playback * list Effect :=
  let start := nextStartTime p in
  let source := created p in
  ({| nextStartTime := start + duration;
      sources := set_add source (sources p);
      created := S (created p) |},
   [SourceStart source start]).

(** The audio branch, lines 248-258, of a handler run that no other
    handler overlaps: the two halves back to back. *)
Definition enqueue (duration now : Q) (p : Playback)
  : Playback * list Effect :=
  enqueue_resume duration (enqueue_failed now p).

(** The interrupted branch, lines 260-266.  The loop visits every
    member of the live set once, in insertion order, stopping and
    deleting the one it is at. *)
Definition interrupt (p : Playback) : Playback * list Effect :=
  ({| nextStartTime := 0;
      sources := foldl (λ s h, set_delete h s) (sources p) (sources p);
      created := created p |},
   map SourceStop (sources p)).

(** The ['ended'] listener of one source: [sources.delete(source)]. *)
Definition ended (h : Handle) (p : Playback) : Playback :=
  {| nextStartTime := nextStartTime p;
     sources := set_delete h (sources p);
     created := created p |}.

Definition onmessage (k : Closure) (now : Q) (m : ServerMessage)
    (c : Component) (p : Playback) : Component * Playback * list Effect :=
  let c1 :=
    match outputTranscription m with
    | Some text => appendModelDelta text c
    | None => c
    end in
  let c2 :=
    match inputTranscription m with
    | Some text => appendUserDelta text c1
    | None => c1
    end in
  let c3 := if turnComplete m then commitTurn k c2 else c2 in
  match inlineAudio m with
  | Undecodable => (c3, enqueue_failed now p, [])
  | audio =>
      let (p1, e1) :=
        match audio with
        | Decoded d => enqueue d now p
        | _ => (p, [])
        end in
      let (p2, e2) := if interrupted m then interrupt p1 else (p1, []) in
      (c3, p2, e1 ++ e2)
  end.

(** The five kinds of message that carry one part each. *)
Definition plainMessage : ServerMessage :=
  {| outputTranscription := None; inputTranscription := None;
     turnComplete := false; inlineAudio := NoAudio; interrupted := false |}.

Definition OutputTranscriptDelta (text : string) : ServerMessage :=
  {| outputTranscription := Some text; inputTranscription := None;
     turnComplete := false; inlineAudio := NoAudio; interrupted := false |}.

Definition InputTranscriptDelta (text : string) : ServerMessage :=
  {| outputTranscription := None; inputTranscription := Some text;
     turnComplete := false; inlineAudio := NoAudio; interrupted := false |}.

Definition TurnComplete : ServerMessage :=
  {| outputTranscription := None; inputTranscription := None;
     turnComplete := true; inlineAudio := NoAudio; interrupted := false |}.

Definition AudioChunk (duration : Q) : ServerMessage :=
  {| outputTranscription := None; inputTranscription := None;
     turnComplete := false; inlineAudio := Decoded duration;
     interrupted := false |}.

Definition Interrupted : ServerMessage :=
  {| outputTranscription := None; inputTranscription := None;
     turnComplete := false; inlineAudio := NoAudio; interrupted := true |}.

(** A session fed the messages [ms], each with the clock reading at
    its arrival, by callbacks whose closure is [k]. *)
Fixpoint deliver (k : Closure) (ms : list (Q * ServerMessage))
    (c : Component) (p : Playback) : Component * Playback * list Effect :=
  match ms with
  | [] => (c, p, [])
  | (now, m) :: rest =>
      let '(c1, p1, e1) := onmessage k now m c p in
      let '(c2, p2, e2) := deliver k rest c1 p1 in
      (c2, p2, e1 ++ e2)
  end.

(** Pressing Start on state [c] with an API key, the connection
    opening, and then the messages [ms]: the callbacks were created
    during the render of [c]. *)
Definition liveSession (c : Component) (ms : list (Q * ServerMessage))
  : Component * Playback * list Effect :=
  deliver (render c) ms (onopen (startSession true Fulfilled c))
    initialPlayback.

(** A run of audio chunks only, given as (clock, duration) pairs. *)
Definition audioChunks (chunks : list (Q * Q)) : list (Q * ServerMessage) :=
  map (λ x, (x.1, AudioChunk x.2)) chunks.

(** The start times passed to [source.start], in call order. *)
Definition scheduledStarts (es : list Effect) : list Q :=
  omap (λ e, match e with SourceStart _ t => Some t | _ => None end) es.

(** The playback state after a run. *)
Definition playbackAfter (r : Component * Playback * list Effect) : Playback :=
  r.1.2.

(** The completion callbacks of the handles [hs], in that order. *)
Definition completions (hs : list Handle) (p : Playback) : Playback :=
  foldl (λ q h, ended h q) p hs.

(** ** Camera and screen: [toggleCamera], [toggleScreenShare],
    [startMediaStream] *)

(** The component together with the calls of [startMediaStream] that
    are suspended at their [await], oldest first. *)
Record Studio := {
  ui : Component;
  inflight : list MediaType
}.

(** How [getUserMedia] / [getDisplayMedia] settles; on success the
    stream, and the handle [setInterval] then returns. *)
Inductive MediaOutcome :=
| Granted (stream : Stream) (interval : positive)
| Denied.

Definition mediaName (ty : MediaType) : string :=
  match ty with camera => "camera" | screen => "screen" end.

(** [startMediaStream] up to its [await]. *)
Definition startMediaStream_begin (ty : MediaType) (c : Component)
  : Component * list Effect :=
  let (c1, e1) := stopAllStreams c in
  (c1, e1 ++ [RequestMedia ty]).

(** [startMediaStream] from its [await] on ([canvasRef] and [videoRef]
    are mounted). *)
Definition startMediaStream_settle (ty : MediaType) (o : MediaOutcome)
    (c : Component) : Component :=
  match o with
  | Granted stream interval =>
      let c1 :=
        assign_videoSrcObject (Some stream)
          (assign_mediaStreamRef (Some stream) c) in
      let c2 :=
        match ty with
        | camera => setIsCameraOn true c1
        | screen => setIsScreenOn true c1
        end in
      assign_frameIntervalRef (Some interval) c2
  | Denied => setStatus (mediaName ty +:+ " access denied or failed.") c
  end.

Definition toggleCamera (k : Closure) (w : Studio) : Studio * list Effect :=
  if negb (seen_isSessionActive k) then (w, [])
  else if seen_isCameraOn k then
    let (c1, e1) := stopAllStreams (ui w) in
    ({| ui := setIsCameraOn false c1; inflight := inflight w |}, e1)
  else
    let c0 := if seen_isScreenOn k then setIsScreenOn false (ui w) else ui w in
    let (c1, e1) := startMediaStream_begin camera c0 in
    ({| ui := c1; inflight := inflight w ++ [camera] |}, e1).

Definition toggleScreenShare (k : Closure) (w : Studio)
  : Studio * list Effect :=
  if negb (seen_isSessionActive k) then (w, [])
  else if seen_isScreenOn k then
    let (c1, e1) := stopAllStreams (ui w) in
    ({| ui := setIsScreenOn false c1; inflight := inflight w |}, e1)
  else
    let c0 := if seen_isCameraOn k then setIsCameraOn false (ui w) else ui w in
    let (c1, e1) := startMediaStream_begin screen c0 in
    ({| ui := c1; inflight := inflight w ++ [screen] |}, e1).

(** What can happen to the studio: a click on one of the two buttons
    (whose handler belongs to the current render), or the [n]-th
    suspended request settling. *)
Inductive StudioEvent :=
| ClickCamera
| ClickScreen
| Settle (n : nat) (o : MediaOutcome).

Definition studioStep (w : Studio) (ev : StudioEvent) : Studio * list Effect :=
  match ev with
  | ClickCamera => toggleCamera (render (ui w)) w
  | ClickScreen => toggleScreenShare (render (ui w)) w
  | Settle n o =>
      match inflight w !! n with
      | Some ty =>
          ({| ui := startMediaStream_settle ty o (ui w);
              inflight := delete n (inflight w) |}, [])
      | None => (w, [])
      end
  end.

Fixpoint studioRun (w : Studio) (evs : list StudioEvent)
  : Studio * list Effect :=
  match evs with
  | [] => (w, [])
  | ev :: rest =>
      let (w1, e1) := studioStep w ev in
      let (w2, e2) := studioRun w1 rest in
      (w2, e1 ++ e2)
  end.

(** A toggle whose request, if it makes one, settles before anything
    else happens. *)
Inductive Toggle :=
| CameraButton (o : MediaOutcome)
| ScreenButton (o : MediaOutcome).

Definition unhurried (t : Toggle) : list StudioEvent :=
  match t with
  | CameraButton o => [ClickCamera; Settle 0 o]
  | ScreenButton o => [ClickScreen; Settle 0 o]
  end.

(** Both flags up at once. *)
Definition bothOn (c : Component) : bool := isCameraOn c && isScreenOn c.

(** ** Shared image: the [useEffect] on [sharedImage] *)

(** The slot of [AppContext] next to the component that consumes it,
    and the images sent so far. *)
Record Host := {
  sharedImage : option SharedImage;
  live : Component
}.

(** One run of the effect on the current render. *)
Definition sharedImageEffect (h : Host) : Host * list Effect :=
  match sharedImage h, sessionPromiseRef (live h) with
  | Some img, Some p =>
      ({| sharedImage := None; live := live h |},
       match p with
       | Fulfilled => [SendRealtimeInput (data img) (mimeType img)]
       | Rejected => []
       end)
  | _, _ => (h, [])
  end.

(** What can happen to the host: the chat hands an image over
    ([setSharedImage] in [FloatingChat]), the effect runs, or the
    component's own state changes in any way at all. *)
Inductive HostEvent :=
| Share (img : SharedImage)
| RunEffect
| Change (c : Component).

Definition hostStep (h : Host) (ev : HostEvent) : Host * list Effect :=
  match ev with
  | Share img => ({| sharedImage := Some img; live := live h |}, [])
  | RunEffect => sharedImageEffect h
  | Change c => ({| sharedImage := sharedImage h; live := c |}, [])
  end.

Fixpoint hostRun (h : Host) (evs : list HostEvent) : Host * list Effect :=
  match evs with
  | [] => (h, [])
  | ev :: rest =>
      let (h1, e1) := hostStep h ev in
      let (h2, e2) := hostRun h1 rest in
      (h2, e1 ++ e2)
  end.

(** The images handed over during a run, and the images sent. *)
Definition handedOver (evs : list HostEvent) : list SharedImage :=
  omap (λ ev, match ev with Share img => Some img | _ => None end) evs.

Definition delivered (es : list Effect) : list SharedImage :=
  omap (λ e, match e with
             | SendRealtimeInput d m => Some {| data := d; mimeType := m |}
             | _ => None
             end) es.

(** ** Reading a run's effects *)

(** The records passed to [onSessionEnd], in call order. *)
Definition sessionEnds (es : list Effect) : list SessionSummary :=
  omap (λ e, match e with OnSessionEnd s => Some s | _ => None end) es.

(** The effects that release a device or the channel. *)
Definition releases (e : Effect) : bool :=
  match e with
  | TrackStop _ | ClearInterval _ | SessionClose
  | ProcessorDisconnect | AudioContextClose => true
  | _ => false
  end.

(** The refs of the component hold no capture or channel resource: no
    media stream, no frame interval, no script processor and no open
    audio context (the two halves of the microphone graph), no
    session promise.  This speaks of the refs only: the microphone's
    own [MediaStream] is a local of [toggleMicrophone] and
    [outputAudioContext] a local of [startSession]; no ref holds
    them, nothing in the component stops or closes them, and [idle]
    says nothing about them. *)
Definition idle (c : Component) : bool :=
  bool_decide (mediaStreamRef c = None) &&
  bool_decide (frameIntervalRef c = None) &&
  negb (scriptProcessorRef c) &&
  bool_decide (audioContextRef c ≠ Some true) &&
  bool_decide (sessionPromiseRef c = None).

(** The refs of a component, as a tuple. *)
Definition refs (c : Component) :=
  (sessionPromiseRef c, mediaStreamRef c, audioContextRef c,
   scriptProcessorRef c, frameIntervalRef c, videoSrcObject c).

#[export] Instance Turn_eq_dec : EqDecision Turn.
Proof. solve_decision. Defined.

(** A component in a connected session with nothing switched on. *)
Definition connected : Component :=
  onopen (startSession true Fulfilled initialComponent).

(** The texts of one speaker's deltas in a run of messages, joined in
    arrival order. *)
Definition userDeltas (ms : list (Q * ServerMessage)) : string :=
  foldr (λ m acc, default "" (inputTranscription m.2) +:+ acc) "" ms.

Definition modelDeltas (ms : list (Q * ServerMessage)) : string :=
  foldr (λ m acc, default "" (outputTranscription m.2) +:+ acc) "" ms.

(** ** Handler runs that overlap *)

(** A run of [onmessage] waiting at [await decodeAudioData]: the
    duration of the buffer the decoder will return, and whether the
    message also said [interrupted]. *)
Record Suspended := {
  awaited : Q;
  thenInterrupted : bool
}.

(** [onmessage] up to the [await], or to its end when there is no
    audio to decode or the decoder throws. *)
Definition onmessage_begin (k : Closure) (now : Q) (m : ServerMessage)
    (c : Component) (p : Playback)
  : Component * Playback * list Effect * option Suspended :=
  let c1 :=
    match outputTranscription m with
    | Some text => appendModelDelta text c
    | None => c
    end in
  let c2 :=
    match inputTranscription m with
    | Some text => appendUserDelta text c1
    | None => c1
    end in
  let c3 := if turnComplete m then commitTurn k c2 else c2 in
  match inlineAudio m with
  | NoAudio =>
      let (p2, e2) := if interrupted m then interrupt p else (p, []) in
      (c3, p2, e2, None)
  | Undecodable => (c3, enqueue_failed now p, [], None)
  | Decoded d =>
      (c3, enqueue_failed now p, [],
       Some {| awaited := d; thenInterrupted := interrupted m |})
  end.

(** [onmessage] from the [await] on, lines 252-266, on the playback
    state as it is when the run resumes. *)
Definition onmessage_resume (s : Suspended) (p : Playback)
  : Playback * list Effect :=
  let (p1, e1) := enqueue_resume (awaited s) p in
  let (p2, e2) := if thenInterrupted s then interrupt p1 else (p1, []) in
  (p2, e1 ++ e2).

(** A session with the handler runs that are waiting at the decoder,
    oldest first. *)
Record Overlapped := {
  page : Component;
  player : Playback;
  waiting : list Suspended
}.

(** A message arrives at clock reading [now] and its handler starts,
    or the [n]-th waiting run resumes. *)
Inductive HandlerEvent :=
| Arrival (now : Q) (m : ServerMessage)
| Resumption (n : nat).

Definition overlappedStep (k : Closure) (st : Overlapped) (ev : HandlerEvent)
  : Overlapped * list Effect :=
  match ev with
  | Arrival now m =>
      let '(c1, p1, e1, s) := onmessage_begin k now m (page st) (player st) in
      ({| page := c1; player := p1;
          waiting := waiting st ++ option_list s |}, e1)
  | Resumption n =>
      match waiting st !! n with
      | Some s =>
          let (p1, e1) := onmessage_resume s (player st) in
          ({| page := page st; player := p1;
              waiting := delete n (waiting st) |}, e1)
      | None => (st, [])
      end
  end.

Fixpoint overlappedRun (k : Closure) (evs : list HandlerEvent)
    (st : Overlapped) : Overlapped * list Effect :=
  match evs with
  | [] => (st, [])
  | ev :: rest =>
      let (st1, e1) := overlappedStep k st ev in
      let (st2, e2) := overlappedRun k rest st1 in
      (st2, e1 ++ e2)
  end.

(** The start and the duration of each buffer handed to
    [source.start], in call order. *)
Fixpoint timeline (k : Closure) (evs : list HandlerEvent) (st : Overlapped)
  : list (Q * Q) :=
  match evs with
  | [] => []
  | ev :: rest =>
      match ev with
      | Resumption n =>
          match waiting st !! n with
          | Some s => [(nextStartTime (player st), awaited s)]
          | None => []
          end
      | Arrival _ _ => []
      end ++ timeline k rest (overlappedStep k st ev).1
  end.

(** The events of a stream of audio chunks: a chunk of the given
    duration arrives, or a waiting run resumes. *)
Inductive ChunkEvent :=
| ChunkArrives (now duration : Q)
| ChunkResumes (n : nat).

Definition chunkEvents (evs : list ChunkEvent) : list HandlerEvent :=
  map (λ ev, match ev with
             | ChunkArrives now d => Arrival now (AudioChunk d)
             | ChunkResumes n => Resumption n
             end) evs.

(** Messages whose handler runs do not overlap: each run resumes
    before the next message arrives. *)
Definition unoverlapped (ms : list (Q * ServerMessage)) : list HandlerEvent :=
  concat (map (λ x, [Arrival x.1 x.2; Resumption 0]) ms).

(** A session with no run waiting. *)
Definition settled (c : Component) (p : Playback) : Overlapped :=
  {| page := c; player := p; waiting := [] |}.

(** ** The shared-image effect as React schedules it *)

(** The effect depends on [[sharedImage, setSharedImage]]: it runs
    after a render in which the slot holds another value than in the
    render before, and when the component mounts.  [HandOver] is
    [setSharedImage] called by the chat; [Becomes] is any change of
    the component's own cells and refs (a session starting or
    stopping, a toggle), which re-renders without running the effect;
    [Remounts] is the component leaving the page and coming back,
    with fresh cells and refs. *)
Inductive PageEvent :=
| HandOver (img : SharedImage)
| Becomes (c : Component)
| Remounts.

Definition pageStep (h : Host) (ev : PageEvent) : Host * list Effect :=
  match ev with
  | HandOver img =>
      let (h1, e1) :=
        sharedImageEffect {| sharedImage := Some img; live := live h |} in
      let (h2, e2) :=
        match sharedImage h1 with
        | None => sharedImageEffect h1
        | Some _ => (h1, [])
        end in
      (h2, e1 ++ e2)
  | Becomes c => ({| sharedImage := sharedImage h; live := c |}, [])
  | Remounts =>
      sharedImageEffect
        {| sharedImage := sharedImage h; live := initialComponent |}
  end.

Fixpoint pageRun (h : Host) (evs : list PageEvent) : Host * list Effect :=
  match evs with
  | [] => (h, [])
  | ev :: rest =>
      let (h1, e1) := pageStep h ev in
      let (h2, e2) := pageRun h1 rest in
      (h2, e1 ++ e2)
  end.

(** The images handed over during a run. *)
Definition handedOverTo (evs : list PageEvent) : list SharedImage :=
  omap (λ ev, match ev with HandOver img => Some img | _ => None end) evs.

(** ** Leaving the page *)

(** The cleanup of the mount effect, lines 37-41:
    [useEffect(() => { return () => { stopSession(); }; }, [])].  The
    effect ran once, after the first render, so the [stopSession] its
    cleanup calls is the one of that render, whose closure holds the
    initial cells. *)
Definition unmountCleanup (e : SummaryEnv) (c : Component)
  : Component * list Effect :=
  stopSession e (render initialComponent) c.

(** ** Microphone: [toggleMicrophone] *)

(** How [getUserMedia({ audio: true })] settles. *)
Inductive MicOutcome := MicGranted | MicDenied.

(** [toggleMicrophone] up to its [await], or to its end when it does
    not reach one.  [active] and [micOn] are the [isSessionActive] and
    [isMicOn] of the handler's render; the boolean returned tells
    whether [getUserMedia] was called. *)
Definition toggleMicrophone (active micOn : bool) (c : Component)
  : Component * list Effect * bool :=
  if negb active then (c, [], false)
  else if micOn then
    let (c1, e1) :=
      if scriptProcessorRef c
      then (assign_scriptProcessorRef false c, [ProcessorDisconnect])
      else (c, []) in
    let (c2, e2) :=
      match audioContextRef c1 with
      | Some true => (assign_audioContextRef None c1, [AudioContextClose])
      | _ => (c1, [])
      end in
    (setStatus "Microphone off." (setIsMicOn false c2), e1 ++ e2, false)
  else (c, [], true).

(** [toggleMicrophone] from its [await] on: the capture graph is
    built and the flag raised, or the refusal is reported. *)
Definition toggleMicrophone_settle (o : MicOutcome) (c : Component)
  : Component :=
  match o with
  | MicGranted =>
      setStatus "Microphone on. Start speaking!"
        (setIsMicOn true
           (assign_scriptProcessorRef true
              (assign_audioContextRef (Some true) c)))
  | MicDenied => setStatus "Microphone access denied." c
  end.

(** The microphone button of the current render, its request (if it
    makes one) settling as [o] before anything else happens. *)
Definition microphoneButton (o : MicOutcome) (c : Component)
  : Component * list Effect :=
  let '(c1, e1, asked) :=
    toggleMicrophone (isSessionActive c) (isMicOn c) c in
  (if asked then toggleMicrophone_settle o c1 else c1, e1).

(** ** The channel going away: [onclose] and [onerror] *)

(** Both callbacks are made by [startSession]; the [isSessionActive]
    and the [stopSession] they name are those of its render, [k]. *)
Definition onclose (e : SummaryEnv) (k : Closure) (c : Component)
  : Component * list Effect :=
  let c1 := setStatus "Connection closed." c in
  if seen_isSessionActive k then stopSession e k c1 else (c1, []).

Definition onerror (e : SummaryEnv) (k : Closure) (type : string)
    (c : Component) : Component * list Effect :=
  let c1 := setStatus ("Error: " +:+ type) c in
  if seen_isSessionActive k then stopSession e k c1 else (c1, []).

(** ** A session's events *)

(** A message arriving at clock reading [now], or the source [h]
    finishing. *)
Inductive SessionEvent :=
| Arrives (now : Q) (m : ServerMessage)
| Ends (h : Handle).

Fixpoint sessionRun (k : Closure) (evs : list SessionEvent)
    (c : Component) (p : Playback) : Component * Playback * list Effect :=
  match evs with
  | [] => (c, p, [])
  | Arrives now m :: rest =>
      let '(c1, p1, e1) := onmessage k now m c p in
      let '(c2, p2, e2) := sessionRun k rest c1 p1 in
      (c2, p2, e1 ++ e2)
  | Ends h :: rest => sessionRun k rest c (ended h p)
  end.

(** The number of messages carrying [turnComplete] among the events. *)
Fixpoint turnsCompleted (evs : list SessionEvent) : nat :=
  match evs with
  | [] => 0
  | Arrives _ m :: rest =>
      (if turnComplete m then 1 else 0) + turnsCompleted rest
  | Ends _ :: rest => turnsCompleted rest
  end.

(** The sources started, and the sources force-stopped, in call order. *)
Definition started (es : list Effect) : list Handle :=
  omap (λ e, match e with SourceStart h _ => Some h | _ => None end) es.

Definition stopped (es : list Effect) : list Handle :=
  omap (λ e, match e with SourceStop h => Some h | _ => None end) es.

(** The sources in the set were made by [createBufferSource] earlier,
    each once. *)
Definition known (p : Playback) : Prop :=
  NoDup (sources p) ∧ ∀ h, h ∈ sources p → (h < created p)%nat.

(** From [p], the calls [es] lead to [p']: every source started is
    new, every source stopped was in the set or started on the way,
    none is stopped twice, and what the set holds at the end was in
    it or started on the way and has not been stopped. *)
Definition accounted (p : Playback) (es : list Effect) (p' : Playback)
  : Prop :=
  known p' ∧ (created p ≤ created p')%nat ∧
  (∀ h, h ∈ started es → (created p ≤ h < created p')%nat) ∧
  NoDup (stopped es) ∧
  (∀ h, h ∈ stopped es →
     (h < created p')%nat ∧ (h ∈ sources p ∨ h ∈ started es)) ∧
  (∀ h, h ∈ sources p' →
     (h ∈ sources p ∨ h ∈ started es) ∧ h ∉ stopped es).

(** ** Flags and capture handles in step *)

(** At most one of camera and screen is on; a stream is held, shown by
    the video element and sampled by an interval exactly when one is. *)
Definition tidy (c : Component) : Prop :=
  bothOn c = false ∧
  videoSrcObject c = mediaStreamRef c ∧
  (is_Some (mediaStreamRef c) ↔ isCameraOn c || isScreenOn c = true) ∧
  (is_Some (frameIntervalRef c) ↔ is_Some (mediaStreamRef c)).

#[export] Instance tidy_dec (c : Component) : Decision (tidy c).
Proof. unfold tidy. apply _. Defined.

(** ** The application shell: [App.tsx] and [SessionSummaries.tsx] *)

(** [Feature] of [types.ts], with the names of [constants.ts]. *)
Inductive Feature :=
| FEATURE_LIVE
| FEATURE_IMAGE_GEN
| FEATURE_SUMMARIES
| FEATURE_LEARNING_PATH.

(** The two state cells of [App]. *)
Record App := {
  activeFeature : Feature;
  summaries : list SessionSummary
}.

Definition initialApp : App :=
  {| activeFeature := FEATURE_LIVE; summaries := [] |}.

(** [setSummaries(prev => [...prev, summary]);
    setActiveFeature(FEATURE_SUMMARIES)] *)
Definition handleSessionEnd (summary : SessionSummary) (a : App) : App :=
  {| activeFeature := FEATURE_SUMMARIES;
     summaries := summaries a ++ [summary] |}.

(** What [renderActiveFeature] mounts, with the props it passes. *)
Inductive View :=
| LiveSessionView
| ImageGeneratorView
| SessionSummariesView (shown : list SessionSummary)
| LearningPathView (shown : list SessionSummary).

Definition renderActiveFeature (a : App) : View :=
  match activeFeature a with
  | FEATURE_LIVE => LiveSessionView
  | FEATURE_IMAGE_GEN => ImageGeneratorView
  | FEATURE_SUMMARIES => SessionSummariesView (summaries a)
  | FEATURE_LEARNING_PATH => LearningPathView (summaries a)
  end.

(** The effect of [SessionSummaries]: with a summary to show and none
    selected, select [summaries[summaries.length - 1]]. *)
Definition selectLatest (shown : list SessionSummary)
    (selected : option SessionSummary) : option SessionSummary :=
  if negb (length shown =? 0)%nat && negb (bool_decide (is_Some selected))
  then last shown
  else selected.

(** [summaries.slice().reverse()], the order of the side list. *)
Definition sideList (shown : list SessionSummary) : list SessionSummary :=
  reverse shown.

(** The calls of [onSessionEnd] among [es], received by [App]. *)
Definition notifyApp (es : list Effect) (a : App) : App :=
  foldl (λ a s, handleSessionEnd s a) a (sessionEnds es).

(** ** Data URLs: [(reader.result as string).split(',')[1]] *)

(** [s.split(',')] *)
Fixpoint splitComma (s : string) : list string :=
  match s with
  | EmptyString => [""]
  | String a rest =>
      if Ascii.eqb a ","%char then "" :: splitComma rest
      else
        match splitComma rest with
        | piece :: more => String a piece :: more
        | [] => [String a ""]
        end
  end.

(** The element at index 1, [None] standing for [undefined]. *)
Definition base64Payload (dataUrl : string) : option string :=
  splitComma dataUrl !! 1%nat.

(** No comma in the string. *)
Fixpoint commaFree (s : string) : bool :=
  match s with
  | EmptyString => true
  | String a rest => negb (Ascii.eqb a ","%char) && commaFree rest
  end.

(** * Properties *)

(** ** Playback scheduler *)

Lemma set_delete_nil (h : Handle) : set_delete h [] = [].
Proof. reflexivity. Qed.

Lemma set_delete_subset (h : Handle) (s : list Handle) (x : Handle) :
  x ∈ set_delete h s → x ∈ s ∧ x ≠ h.
Proof. unfold set_delete. rewrite list_elem_of_filter. tauto. Qed.

(** Deleting every member of a list that covers the set empties it. *)
Lemma delete_all_covering (visited s : list Handle) :
  s ⊆ visited → foldl (λ s h, set_delete h s) s visited = [].
Proof.
  revert s. induction visited as [|h visited IH]; intros s Hs; simpl.
  - destruct s as [|x s]; [done|].
    by destruct (not_elem_of_nil x (Hs x (list_elem_of_here x s))).
  - apply IH. intros x Hx. apply set_delete_subset in Hx as [Hx Hne].
    apply Hs, elem_of_cons in Hx as [Hx|Hx]; [by destruct Hne|done].
Qed.

Lemma interrupt_empties (p : Playback) : sources (interrupt p).1 = [].
Proof. simpl. by apply delete_all_covering. Qed.

Lemma interrupt_stops_all (p : Playback) :
  (interrupt p).2 = map SourceStop (sources p).
Proof. reflexivity. Qed.

Lemma completions_cursor (hs : list Handle) (p : Playback) :
  nextStartTime (completions hs p) = nextStartTime p.
Proof.
  revert p. induction hs as [|h hs IH]; intros p; [done|].
  unfold completions in *. simpl. by rewrite IH.
Qed.

Lemma completions_empty (hs : list Handle) (p : Playback) :
  sources p = [] → sources (completions hs p) = [].
Proof.
  revert p. induction hs as [|h hs IH]; intros p Hp; [done|].
  unfold completions in *. simpl. apply IH. simpl. by rewrite Hp.
Qed.

Lemma onmessage_Interrupted (k : Closure) (now : Q) (c : Component)
    (p : Playback) :
  onmessage k now Interrupted c p = (c, (interrupt p).1, (interrupt p).2).
Proof. reflexivity. Qed.

(** After an interruption the next chunk starts at its own clock
    reading, whatever the cursor was before. *)
Lemma enqueue_after_interrupt (p : Playback) (d now : Q) :
  (0 <= now)%Q →
  ∃ start, scheduledStarts (enqueue d now (interrupt p).1).2 = [start] ∧
           (start == now)%Q.
Proof.
  intros Hnow. eexists. split; [reflexivity|]. simpl.
  by apply Q.max_r.
Qed.

(** C1, as the code has it: handling [Interrupted] stops every handle
    of [sources] and leaves the set empty; the completion callbacks of
    any handles, fired afterwards in any order and number, leave it
    empty; and the cursor [nextStartTime] is then 0, whatever the
    clock reads. *)
Theorem interrupt_clears_sources_and_zeroes_cursor
    (k : Closure) (now : Q) (c : Component) (p : Playback)
    (hs : list Handle) :
  let r := onmessage k now Interrupted c p in
  r.2 = map SourceStop (sources p) ∧
  sources (playbackAfter r) = [] ∧
  sources (completions hs (playbackAfter r)) = [] ∧
  nextStartTime (completions hs (playbackAfter r)) = 0%Q.
Proof.
  rewrite onmessage_Interrupted. unfold playbackAfter. simpl.
  split; [done|]. split; [apply (interrupt_empties p)|].
  split.
  - apply completions_empty, (interrupt_empties p).
  - by rewrite completions_cursor.
Qed.

(** C1, as stated, fails: with the cursor at 3, one source playing and
    the clock at 5, the cursor after the interruption is 0, not 5. *)
Lemma interrupt_cursor_is_not_the_clock :
  let p := {| nextStartTime := 3; sources := [0%nat]; created := 1 |} in
  let r := onmessage (render initialComponent) 5 Interrupted
             initialComponent p in
  ¬ (sources (playbackAfter r) = [] ∧
     (nextStartTime (playbackAfter r) == 5)%Q).
Proof. simpl. intros [_ H]. vm_compute in H. discriminate. Qed.


Lemma deliver_audio_cons (k : Closure) (now d : Q) (rest : list (Q * Q))
    (c : Component) (p : Playback) :
  deliver k (audioChunks ((now, d) :: rest)) c p
  = let r := deliver k (audioChunks rest) c (enqueue d now p).1 in
    (r.1.1, r.1.2, (enqueue d now p).2 ++ r.2).
Proof.
  simpl. by destruct (deliver k (audioChunks rest) c _) as [[c' p'] es].
Qed.

Lemma starts_audio_cons (k : Closure) (now d : Q) (rest : list (Q * Q))
    (c : Component) (p : Playback) :
  scheduledStarts (deliver k (audioChunks ((now, d) :: rest)) c p).2
  = Qmax (nextStartTime p) now
    :: scheduledStarts (deliver k (audioChunks rest) c (enqueue d now p).1).2.
Proof. by rewrite deliver_audio_cons. Qed.

Lemma starts_audio_length (k : Closure) (chunks : list (Q * Q))
    (c : Component) (p : Playback) :
  length (scheduledStarts (deliver k (audioChunks chunks) c p).2)
  = length chunks.
Proof.
  revert p. induction chunks as [|[now d] rest IH]; intros p; [done|].
  rewrite starts_audio_cons. simpl. by rewrite IH.
Qed.

(** The [i]-th chunk starts at the larger of the cursor it finds and
    its clock reading, and moves the cursor to its own end. *)
Lemma starts_audio_lookup (k : Closure) (chunks : list (Q * Q))
    (c : Component) (p : Playback) (i : nat) (now d : Q) :
  chunks !! i = Some (now, d) →
  let before :=
    nextStartTime (playbackAfter (deliver k (audioChunks (take i chunks)) c p)) in
  scheduledStarts (deliver k (audioChunks chunks) c p).2 !! i
    = Some (Qmax before now) ∧
  nextStartTime
    (playbackAfter (deliver k (audioChunks (take (S i) chunks)) c p))
    = (Qmax before now + d)%Q.
Proof.
  revert p i. induction chunks as [|[now0 d0] rest IH]; intros p i Hi; [done|].
  destruct i as [|i].
  - injection Hi as -> ->. rewrite starts_audio_cons. split; [done|].
    rewrite firstn_cons, take_0, deliver_audio_cons. reflexivity.
  - simpl in Hi. specialize (IH (enqueue d0 now0 p).1 i Hi).
    rewrite starts_audio_cons. rewrite !firstn_cons, !deliver_audio_cons.
    exact IH.
Qed.

(** Chunks handled one after the other by [deliver], no handler run
    overlapping another: each chunk is started at [max(cursor, clock)]
    and the cursor then moves to that start plus the chunk's
    duration; hence every start is at least the previous start plus
    the previous duration, and, durations being non-negative, the
    starts never decrease. *)
Lemma enqueue_starts_chain (k : Closure) (chunks : list (Q * Q))
    (c : Component) (p : Playback) :
  let cursor n :=
    nextStartTime (playbackAfter (deliver k (audioChunks (take n chunks)) c p)) in
  let starts := scheduledStarts (deliver k (audioChunks chunks) c p).2 in
  length starts = length chunks ∧
  (∀ i now d, chunks !! i = Some (now, d) →
     starts !! i = Some (Qmax (cursor i) now) ∧
     cursor (S i) = (Qmax (cursor i) now + d)%Q) ∧
  (∀ i now d s s', chunks !! i = Some (now, d) →
     starts !! i = Some s → starts !! S i = Some s' → (s + d <= s')%Q) ∧
  (Forall (λ x, 0 <= x.2)%Q chunks →
   ∀ i s s', starts !! i = Some s → starts !! S i = Some s' → (s <= s')%Q).
Proof.
  intros cursor starts.
  assert (Hlen : length starts = length chunks)
    by apply starts_audio_length.
  assert (Hstep : ∀ i now d, chunks !! i = Some (now, d) →
     starts !! i = Some (Qmax (cursor i) now) ∧
     cursor (S i) = (Qmax (cursor i) now + d)%Q)
    by (intros i now d Hi; by apply starts_audio_lookup).
  assert (Hgap : ∀ i now d s s', chunks !! i = Some (now, d) →
     starts !! i = Some s → starts !! S i = Some s' → (s + d <= s')%Q).
  { intros i now d s s' Hi Hs Hs'.
    destruct (Hstep i now d Hi) as [Hs0 Hc]. rewrite Hs in Hs0.
    injection Hs0 as ->.
    destruct (chunks !! S i) as [[now' d']|] eqn:Hi'.
    - destruct (Hstep (S i) now' d' Hi') as [Hs1 _]. rewrite Hs' in Hs1.
      injection Hs1 as ->. rewrite Hc. apply Q.le_max_l.
    - apply lookup_ge_None in Hi'. apply lookup_lt_Some in Hs'. lia. }
  split; [exact Hlen|]. split; [exact Hstep|]. split; [exact Hgap|].
  intros Hpos i s s' Hs Hs'.
  destruct (chunks !! i) as [[now d]|] eqn:Hi.
  - pose proof (Hgap i now d s s' Hi Hs Hs') as Hle.
    rewrite Forall_lookup in Hpos. specialize (Hpos i _ Hi). simpl in Hpos.
    lra.
  - apply lookup_ge_None in Hi. apply lookup_lt_Some in Hs. lia.
Qed.

(** The spec's scenario: durations 1.0, 0.5, 0.3 arriving at clock
    times 0, 0.2, 5.0 start at 0, 1.0 and 5.0. *)
Lemma enqueue_starts_chain_witness :
  let chunks := [(0, 1); (1 # 5, 1 # 2); (5, 3 # 10)]%Q in
  let starts :=
    scheduledStarts
      (deliver (render initialComponent) (audioChunks chunks)
         initialComponent initialPlayback).2 in
  Forall (λ x, 0 <= x.2)%Q chunks ∧
  starts = [0; 1; 5]%Q ∧
  (∀ i s s', starts !! i = Some s → starts !! S i = Some s' → (s <= s')%Q).
Proof.
  intros chunks starts.
  assert (Hpos : Forall (λ x, 0 <= x.2)%Q chunks).
  { repeat constructor; simpl; lra. }
  split; [exact Hpos|]. split; [reflexivity|].
  exact (proj2 (proj2 (proj2
    (enqueue_starts_chain (render initialComponent) chunks
       initialComponent initialPlayback))) Hpos).
Defined.

(** C10: a message that only says [interrupted] leaves every state
    cell and every ref of the component as it was; and for any
    message at all, the component it leaves does not depend on
    whether [interrupted] is set. *)
Theorem interrupted_touches_playback_only (k : Closure) (now : Q)
    (c : Component) (p : Playback) :
  (onmessage k now Interrupted c p).1.1 = c ∧
  ∀ m : ServerMessage,
    (onmessage k now m c p).1.1
    = (onmessage k now
         {| outputTranscription := outputTranscription m;
            inputTranscription := inputTranscription m;
            turnComplete := turnComplete m;
            inlineAudio := inlineAudio m;
            interrupted := false |} c p).1.1.
Proof.
  split; [reflexivity|]. intros m. unfold onmessage. simpl.
  destruct (inlineAudio m) as [| |d]; [|done|].
  - by destruct (interrupted m).
  - by destruct (interrupted m).
Qed.

(** ** Transcript aggregation *)

Lemma commitTurn_appends_seen (k : Closure) (c : Component) :
  transcription (commitTurn k c) = transcription c ++ [seen_currentSpokenText k] ∧
  currentSpokenText (commitTurn k c) = emptyTurn.
Proof. done. Qed.

Lemma onmessage_transcription (k : Closure) (now : Q) (m : ServerMessage)
    (c : Component) (p : Playback) :
  transcription (onmessage k now m c p).1.1
  = transcription c ++ (if turnComplete m then [seen_currentSpokenText k] else []).
Proof.
  unfold onmessage.
  destruct (outputTranscription m), (inputTranscription m), (turnComplete m),
    (inlineAudio m), (interrupted m); simpl; by rewrite ?app_nil_r.
Qed.

(** Whatever deltas arrive before it, a [TurnComplete] commits the
    buffer its closure saw when the session was started. *)
Lemma deliver_commits_seen (k : Closure) (ms : list (Q * ServerMessage))
    (now : Q) (c : Component) (p : Playback) :
  Forall (λ m, turnComplete m.2 = false) ms →
  transcription (deliver k (ms ++ [(now, TurnComplete)]) c p).1.1
  = transcription c ++ [seen_currentSpokenText k].
Proof.
  revert c p. induction ms as [|[t m] ms IH]; intros c p Hms; [done|].
  apply Forall_cons in Hms as [Hm Hms]. simpl in *.
  pose proof (onmessage_transcription k t m c p) as Ht.
  destruct (onmessage k t m c p) as [[c1 p1] e1]. specialize (IH c1 p1 Hms).
  destruct (deliver k (ms ++ [(now, TurnComplete)]) c1 p1) as [[c2 p2] e2].
  simpl in *. rewrite IH, Ht, Hm. by rewrite app_nil_r.
Qed.

Lemma append_assoc (a b c : string) : (a +:+ b) +:+ c = a +:+ (b +:+ c).
Proof.
  induction a as [|x a IH]; [done|].
  change (String x ((a +:+ b) +:+ c) = String x (a +:+ (b +:+ c))).
  by rewrite IH.
Qed.

Lemma append_empty_r (a : string) : a +:+ "" = a.
Proof.
  induction a as [|x a IH]; [done|].
  change (String x (a +:+ "") = String x a). by rewrite IH.
Qed.

Lemma onmessage_buffer (k : Closure) (now : Q) (m : ServerMessage)
    (c : Component) (p : Playback) :
  turnComplete m = false →
  currentSpokenText (onmessage k now m c p).1.1
  = {| user := user (currentSpokenText c)
               +:+ default "" (inputTranscription m);
       model := model (currentSpokenText c)
                +:+ default "" (outputTranscription m) |}.
Proof.
  intros Hm. unfold onmessage. rewrite Hm.
  destruct (currentSpokenText c) as [u v] eqn:Hcur.
  destruct (outputTranscription m), (inputTranscription m),
    (inlineAudio m), (interrupted m); simpl; rewrite ?Hcur; simpl;
    by rewrite ?append_empty_r.
Qed.

(** Until a [TurnComplete] arrives the live buffer holds, per speaker,
    that speaker's deltas in arrival order, however the two speakers'
    deltas are interleaved. *)
Lemma deliver_buffer (k : Closure) (ms : list (Q * ServerMessage))
    (c : Component) (p : Playback) :
  Forall (λ m, turnComplete m.2 = false) ms →
  currentSpokenText (deliver k ms c p).1.1
  = {| user := user (currentSpokenText c) +:+ userDeltas ms;
       model := model (currentSpokenText c) +:+ modelDeltas ms |}.
Proof.
  revert c p. induction ms as [|[t m] ms IH]; intros c p Hms.
  - simpl. rewrite !append_empty_r. by destruct (currentSpokenText c).
  - apply Forall_cons in Hms as [Hm Hms]. simpl in Hm.
    pose proof (onmessage_buffer k t m c p Hm) as Hb.
    cbn [deliver]. destruct (onmessage k t m c p) as [[c1 p1] e1].
    specialize (IH c1 p1 Hms).
    destruct (deliver k ms c1 p1) as [[c2 p2] e2].
    cbn [fst snd] in *. rewrite IH, Hb. cbn [user model userDeltas modelDeltas foldr snd].
    by rewrite !append_assoc.
Qed.

(** C3 on the code: a session started from the initial state receives
    the user delta "hi" and then [TurnComplete].  The committed turn is
    the empty buffer that the closure of [onmessage] captured, not the
    turn holding "hi". *)
Theorem turnComplete_commits_stale_buffer :
  let r := liveSession initialComponent
             [(0%Q, InputTranscriptDelta "hi"); (0%Q, TurnComplete)] in
  transcription r.1.1 = [emptyTurn] ∧
  transcription r.1.1 ≠ [{| user := "hi"; model := "" |}] ∧
  currentSpokenText r.1.1 = emptyTurn.
Proof. vm_compute. repeat split; discriminate. Qed.

(** ** Teardown *)

Lemma flushPending_spec (cur : Turn) :
  flushPending cur = if decide (cur = emptyTurn) then None else Some cur.
Proof.
  case_decide as Hcur; [by rewrite Hcur|].
  by destruct cur as [[|a u] [|b m]].
Qed.

Lemma sessionEnds_app (es es' : list Effect) :
  sessionEnds (es ++ es') = sessionEnds es ++ sessionEnds es'.
Proof. apply omap_app. Qed.

Lemma stopAllStreams_no_sessionEnds (c : Component) :
  sessionEnds (stopAllStreams c).2 = [].
Proof.
  unfold stopAllStreams.
  destruct (mediaStreamRef c); simpl;
    by destruct (frameIntervalRef c).
Qed.

(** The only records a stop hands to [onSessionEnd] are the ones
    [generateAndSaveSummary] makes from the final transcription. *)
Lemma sessionEnds_stopSession (e : SummaryEnv) (k : Closure) (c : Component) :
  sessionEnds (stopSession e k c).2
  = option_list (generateAndSaveSummary e (finalTranscription k)).
Proof.
  unfold stopSession.
  set (c0 := setIsAnnotating _ _).
  pose proof (stopAllStreams_no_sessionEnds c0) as H1.
  destruct (stopAllStreams c0) as [c1 e1]. simpl in H1.
  destruct (sessionPromiseRef c1) as [[|]|];
    destruct (scriptProcessorRef _);
    match goal with
    | |- context [audioContextRef ?x] => destruct (audioContextRef x) as [[|]|]
    end;
    simpl; rewrite !sessionEnds_app, H1; simpl;
    by destruct (generateAndSaveSummary e (finalTranscription k)).
Qed.

(** The cleanup of the mount effect calls the [stopSession] of the
    first render, whose closure holds no turn: it hands nothing to
    [onSessionEnd], whatever the component holds by then. *)
Lemma unmount_stop_hands_nothing (e : SummaryEnv) (c : Component) :
  sessionEnds (stopSession e (render initialComponent) c).2 = [].
Proof. by rewrite sessionEnds_stopSession. Qed.

(** The Stop button: the partial turn is kept exactly when it is not
    empty; the transcription handed to the summarizer is the
    committed turns followed by that partial turn, if any; and the
    buffer is empty after the stop. *)
Lemma stop_flushes_pending_turn (e : SummaryEnv) (c : Component) :
  let cur := currentSpokenText c in
  flushPending cur = (if decide (cur = emptyTurn) then None else Some cur) ∧
  finalTranscription (render c)
    = transcription c ++ (if decide (cur = emptyTurn) then [] else [cur]) ∧
  sessionEnds (clickStop e c).2
    = option_list (generateAndSaveSummary e (finalTranscription (render c))) ∧
  currentSpokenText (clickStop e c).1 = emptyTurn.
Proof.
  intros cur. split; [apply flushPending_spec|]. split.
  - unfold finalTranscription. simpl. fold cur. rewrite flushPending_spec.
    by case_decide.
  - split; [apply sessionEnds_stopSession|].
    unfold clickStop, stopSession.
    destruct (stopAllStreams _) as [c1 e1].
    destruct (sessionPromiseRef c1) as [[|]|];
      destruct (scriptProcessorRef _);
      match goal with
      | |- context [audioContextRef ?x] => destruct (audioContextRef x) as [[|]|]
      end; reflexivity.
Qed.

(** The state a stop leaves, cell by cell. *)
Lemma stopSession_state (e : SummaryEnv) (k : Closure) (c : Component) :
  (stopSession e k c).1
  = {| isSessionActive := false; isMicOn := false; isCameraOn := false;
       isScreenOn := false; isAnnotating := false;
       status := "Session ended.";
       transcription := []; currentSpokenText := emptyTurn;
       sessionPromiseRef := None; mediaStreamRef := None;
       audioContextRef :=
         match audioContextRef c with Some true => None | a => a end;
       scriptProcessorRef := false; frameIntervalRef := None;
       videoSrcObject := None |}.
Proof.
  destruct c as [a m ca sc an st tr cu sp ms ac pr fi vs].
  destruct ms, fi, sp as [[|]|], pr, ac as [[|]|]; reflexivity.
Qed.

Lemma stopAllStreams_idle (c : Component) :
  mediaStreamRef c = None → frameIntervalRef c = None →
  videoSrcObject c = None → stopAllStreams c = (c, []).
Proof.
  destruct c; simpl. intros -> -> ->. reflexivity.
Qed.

Lemma stopAllStreams_twice (c : Component) :
  stopAllStreams (stopAllStreams c).1 = ((stopAllStreams c).1, []).
Proof.
  apply stopAllStreams_idle; unfold stopAllStreams;
    destruct (mediaStreamRef c) eqn:Hm; simpl;
    destruct (frameIntervalRef c) eqn:Hf; simpl; by rewrite ?Hm, ?Hf.
Qed.

(** A stop whose closure holds no turn at all, on a stopped
    component, changes nothing and calls nothing. *)
Lemma stopSession_again (e e' : SummaryEnv) (k k' : Closure) (c : Component) :
  finalTranscription k' = [] →
  stopSession e' k' (stopSession e k c).1 = ((stopSession e k c).1, []).
Proof.
  intros Hk'. rewrite stopSession_state.
  unfold stopSession. rewrite Hk'.
  by destruct (audioContextRef c) as [[|]|].
Qed.

Lemma stopSession_idle (e : SummaryEnv) (k : Closure) (c : Component) :
  idle c = true →
  filter releases (stopSession e k c).2 = [] ∧
  refs (stopSession e k c).1 = refs (stopAllStreams c).1.
Proof.
  destruct c as [a m ca sc an st tr cu sp ms ac pr fi vs].
  intros Hidle.
  destruct ms, fi, sp as [[|]|], pr, ac as [[|]|]; try discriminate Hidle;
    (split; [|reflexivity]); unfold stopSession; cbn;
    by destruct (generateAndSaveSummary e (finalTranscription k)).
Qed.

(** C8: releasing streams that are already released, and releasing
    them twice, changes nothing and calls nothing; a second stop, be
    it the Stop handler of the render that followed the first stop or
    the unmount handler of the first render, changes nothing and calls
    nothing; and a stop of idle pipelines calls no release and leaves
    every ref as it was. *)
Theorem stop_is_idempotent (e e' : SummaryEnv) (k : Closure) (c : Component) :
  let stopped := (stopSession e k c).1 in
  (idle c = true → videoSrcObject c = None →
     stopAllStreams c = (c, []) ∧
     filter releases (stopSession e k c).2 = [] ∧
     refs stopped = refs c) ∧
  stopAllStreams (stopAllStreams c).1 = ((stopAllStreams c).1, []) ∧
  stopSession e' (render stopped) stopped = (stopped, []) ∧
  stopSession e' (render initialComponent) stopped = (stopped, []).
Proof.
  intros stopped. split; [|split; [|split]].
  - intros Hidle Hvideo.
    assert (Hstreams : stopAllStreams c = (c, [])).
    { unfold idle in Hidle. rewrite !andb_true_iff in Hidle.
      destruct Hidle as [[[[Hm Hf] _] _] _].
      apply bool_decide_eq_true in Hm, Hf. by apply stopAllStreams_idle. }
    destruct (stopSession_idle e k c Hidle) as [Hrel Hrefs].
    split; [done|]. split; [done|].
    unfold stopped. by rewrite Hrefs, Hstreams.
  - apply stopAllStreams_twice.
  - apply stopSession_again. unfold stopped. by rewrite stopSession_state.
  - by apply stopSession_again.
Qed.

(** The component as first rendered is idle; stopping it calls nothing. *)
Lemma stop_is_idempotent_witness :
  let e := {| API_KEY := Some "key"; isoNow := ""; localNow := "";
              generate := GenerateThrows |} in
  idle initialComponent = true ∧ videoSrcObject initialComponent = None ∧
  stopAllStreams initialComponent = (initialComponent, []) ∧
  filter releases (stopSession e (render initialComponent) initialComponent).2
    = [] ∧
  refs (stopSession e (render initialComponent) initialComponent).1
    = refs initialComponent.
Proof.
  intros e. split; [reflexivity|]. split; [reflexivity|].
  exact (proj1 (stop_is_idempotent e e (render initialComponent)
                  initialComponent) eq_refl eq_refl).
Defined.

(** ** Summary generation *)

Lemma generateAndSaveSummary_skipped (e : SummaryEnv) (full : list Turn) :
  generateAndSaveSummary e full = None ↔ full = [] ∨ hasApiKey e = false.
Proof.
  unfold generateAndSaveSummary.
  destruct full as [|t full], (hasApiKey e); simpl.
  - naive_solver.
  - naive_solver.
  - destruct (generate e); (split; [discriminate|intros [?|?]; discriminate]).
  - naive_solver.
Qed.

(** C7: with a transcription that is not empty and an API key, a
    remote call that throws still yields a record, titled "Session
    Log (Summary Failed)" and holding the transcript text; a stop
    whose final transcription is that one hands exactly this record
    to [onSessionEnd]. *)
Theorem summary_failure_falls_back (e : SummaryEnv) (full : list Turn) :
  full ≠ [] → hasApiKey e = true → generate e = GenerateThrows →
  let record :=
    {| id := isoNow e; title := "Session Log (Summary Failed)";
       content := transcriptText full; date := localNow e |} in
  generateAndSaveSummary e full = Some record ∧
  ∀ (k : Closure) (c : Component),
    finalTranscription k = full →
    sessionEnds (stopSession e k c).2 = [record].
Proof.
  intros Hfull Hkey Hgen record.
  assert (Hrec : generateAndSaveSummary e full = Some record).
  { unfold generateAndSaveSummary. rewrite Hkey, Hgen.
    by destruct full. }
  split; [done|]. intros k c Hk.
  by rewrite sessionEnds_stopSession, Hk, Hrec.
Qed.

(** A session stopped in the middle of its first turn, summarizer
    failing. *)
Lemma summary_failure_falls_back_witness :
  let e := {| API_KEY := Some "key"; isoNow := "2025-01-01T00:00:00.000Z";
              localNow := "1/1/2025, 12:00:00 AM";
              generate := GenerateThrows |} in
  let full := [{| user := "hi"; model := "hello" |}] in
  full ≠ [] ∧ hasApiKey e = true ∧ generate e = GenerateThrows ∧
  generateAndSaveSummary e full
  = Some {| id := "2025-01-01T00:00:00.000Z";
            title := "Session Log (Summary Failed)";
            content := "User: hi" +:+ nl +:+ "Gemini: hello";
            date := "1/1/2025, 12:00:00 AM" |}.
Proof.
  intros e full.
  assert (Hfull : full ≠ []) by discriminate.
  split; [exact Hfull|]. split; [reflexivity|]. split; [reflexivity|].
  exact (proj1 (summary_failure_falls_back e full Hfull eq_refl eq_refl)).
Defined.

(** C9: with an empty final transcription, or without an API key, no
    record is made and a stop never calls [onSessionEnd]. *)
Theorem no_record_without_transcript_or_key (e : SummaryEnv)
    (full : list Turn) :
  full = [] ∨ hasApiKey e = false →
  generateAndSaveSummary e full = None ∧
  ∀ (k : Closure) (c : Component),
    finalTranscription k = full →
    sessionEnds (stopSession e k c).2 = [] ∧
    ∀ s, OnSessionEnd s ∉ (stopSession e k c).2.
Proof.
  intros Hskip.
  assert (Hnone : generateAndSaveSummary e full = None)
    by by apply generateAndSaveSummary_skipped.
  split; [done|]. intros k c Hk.
  assert (Hends : sessionEnds (stopSession e k c).2 = [])
    by by rewrite sessionEnds_stopSession, Hk, Hnone.
  split; [done|]. intros s Hin.
  assert (s ∈ sessionEnds (stopSession e k c).2) as Hs.
  { unfold sessionEnds. apply list_elem_of_omap. by exists (OnSessionEnd s). }
  rewrite Hends in Hs. by apply not_elem_of_nil in Hs.
Qed.

(** Stopping a session that heard nothing, and stopping one without a
    key in the middle of a turn. *)
Lemma no_record_without_transcript_or_key_witness :
  let e := {| API_KEY := None; isoNow := ""; localNow := "";
              generate := GenerateReturns "{}" ParseThrows |} in
  let full := [{| user := "hi"; model := "" |}] in
  (full = [] ∨ hasApiKey e = false) ∧
  generateAndSaveSummary e full = None.
Proof.
  intros e full.
  assert (Hskip : full = [] ∨ hasApiKey e = false) by (right; reflexivity).
  split; [exact Hskip|].
  exact (proj1 (no_record_without_transcript_or_key e full Hskip)).
Defined.

(** ** Camera and screen *)

Lemma studioRun_app (w : Studio) (evs evs' : list StudioEvent) :
  studioRun w (evs ++ evs')
  = let r := studioRun w evs in
    let r' := studioRun r.1 evs' in
    (r'.1, r.2 ++ r'.2).
Proof.
  revert w. induction evs as [|ev evs IH]; intros w; simpl.
  - by destruct (studioRun w evs').
  - destruct (studioStep w ev) as [w1 e1]. rewrite IH. simpl.
    destruct (studioRun w1 evs) as [w2 e2]. simpl.
    destruct (studioRun w2 evs') as [w3 e3]. simpl. by rewrite app_assoc.
Qed.

(** One toggle that settles before the next event keeps the two flags
    apart and leaves no request suspended. *)
Lemma unhurried_toggle_exclusive (t : Toggle) (w : Studio) :
  inflight w = [] → bothOn (ui w) = false →
  inflight (studioRun w (unhurried t)).1 = [] ∧
  bothOn (ui (studioRun w (unhurried t)).1) = false.
Proof.
  destruct w as [c inf]. simpl. intros -> Hoff.
  destruct c as [a m ca sc an st tr cu sp ms ac pr fi vs].
  unfold bothOn in Hoff. simpl in Hoff.
  destruct t as [[s i|]|[s i|]], a, ca, sc, ms, fi;
    try discriminate Hoff; by vm_compute.
Qed.

(** Toggles taken one at a time never raise both flags. *)
Lemma unhurried_toggles_exclusive (ts : list Toggle) (w : Studio) :
  inflight w = [] → bothOn (ui w) = false →
  inflight (studioRun w (concat (map unhurried ts))).1 = [] ∧
  bothOn (ui (studioRun w (concat (map unhurried ts))).1) = false.
Proof.
  revert w. induction ts as [|t ts IH]; intros w Hin Hoff; [done|].
  simpl concat. rewrite studioRun_app. simpl.
  destruct (unhurried_toggle_exclusive t w Hin Hoff) as [Hin' Hoff'].
  by apply IH.
Qed.

(** Switching from camera to screen, one at a time: the camera's
    stream and interval are released before the screen is asked for. *)
Lemma switch_releases_first (c : Component) (s : Stream) (i : positive) :
  isSessionActive c = true → isCameraOn c = true → isScreenOn c = false →
  mediaStreamRef c = Some s → frameIntervalRef c = Some i →
  let r := studioStep {| ui := c; inflight := [] |} ClickScreen in
  r.2 = [TrackStop s; ClearInterval i; RequestMedia screen] ∧
  isCameraOn (ui r.1) = false ∧ mediaStreamRef (ui r.1) = None.
Proof.
  destruct c; simpl. by intros -> -> -> -> ->.
Qed.

(** C5 on the code: in a connected session the camera button is
    pressed, then the screen button while the camera request is still
    suspended; the camera request is granted stream 1, then the screen
    request stream 2.  Both flags end up true, and stream 1 and its
    frame interval were never released. *)
Theorem overlapping_toggles_raise_both_flags :
  let r := studioRun {| ui := connected; inflight := [] |}
             [ClickCamera; ClickScreen;
              Settle 0 (Granted 1 1); Settle 0 (Granted 2 2)] in
  isCameraOn (ui r.1) = true ∧ isScreenOn (ui r.1) = true ∧
  mediaStreamRef (ui r.1) = Some 2%nat ∧
  frameIntervalRef (ui r.1) = Some 2%positive ∧
  r.2 = [RequestMedia camera; RequestMedia screen].
Proof. by vm_compute. Qed.

(** ** Shared image *)

Lemma delivered_app (es es' : list Effect) :
  delivered (es ++ es') = delivered es ++ delivered es'.
Proof. apply omap_app. Qed.

Lemma sharedImageEffect_sublist (h : Host) :
  delivered (sharedImageEffect h).2 ++
    option_list (sharedImage (sharedImageEffect h).1)
  = option_list (sharedImage h)
  ∨ (delivered (sharedImageEffect h).2 = [] ∧
     sharedImage (sharedImageEffect h).1 = None).
Proof.
  destruct h as [[[d m]|] c]; unfold sharedImageEffect; simpl;
    [destruct (sessionPromiseRef c) as [[|]|]|]; simpl; auto.
Qed.

(** Without a session promise the effect sends nothing and keeps the
    slot as it is. *)
Lemma sharedImageEffect_without_session (h : Host) :
  sessionPromiseRef (live h) = None → sharedImageEffect h = (h, []).
Proof.
  intros Hnone. unfold sharedImageEffect. rewrite Hnone.
  by destruct (sharedImage h).
Qed.

(** Every image sent was handed over, in the same order, and no
    hand-over is sent twice. *)
Lemma delivered_sublist (h : Host) (evs : list HostEvent) :
  delivered (hostRun h evs).2
    `sublist_of` option_list (sharedImage h) ++ handedOver evs.
Proof.
  revert h. induction evs as [|ev evs IH]; intros h; simpl.
  - apply sublist_nil_l.
  - destruct (hostStep h ev) as [h1 e1] eqn:Hstep.
    specialize (IH h1). destruct (hostRun h1 evs) as [h2 e2]. simpl in *.
    rewrite delivered_app.
    destruct ev as [img| |c]; simpl in *.
    + injection Hstep as <- <-. simpl in *.
      by apply sublist_inserts_l.
    + pose proof (sharedImageEffect_sublist h) as Heff. rewrite Hstep in Heff.
      simpl in Heff. destruct Heff as [<-|[-> Hnone]].
      * rewrite <- app_assoc. by apply sublist_app.
      * rewrite Hnone in IH. simpl in *. by apply sublist_inserts_l.
    + injection Hstep as <- <-. simpl in *. done.
Qed.

(** Whenever and however often the effect runs: with an image in the
    slot and a session that connects, it sends that image once and
    empties the slot, and running it again sends nothing; over any
    sequence of hand-overs, effect runs and state changes, the images
    sent are a subsequence of the images handed over. *)
Lemma shared_image_consumed_once (h : Host) (evs : list HostEvent) :
  (∀ (img : SharedImage) (c : Component),
     let h0 := {| sharedImage := Some img;
                  live := assign_sessionPromiseRef (Some Fulfilled) c |} in
     sharedImageEffect h0
     = ({| sharedImage := None; live := live h0 |},
        [SendRealtimeInput (data img) (mimeType img)]) ∧
     sharedImageEffect (sharedImageEffect h0).1
     = ((sharedImageEffect h0).1, [])) ∧
  delivered (hostRun h evs).2
    `sublist_of` option_list (sharedImage h) ++ handedOver evs.
Proof.
  split; [done|]. apply delivered_sublist.
Qed.

(** ** Device buttons, further properties *)

Lemma studioStep_inactive (w : Studio) (ev : StudioEvent) :
  isSessionActive (ui w) = false → inflight w = [] →
  studioStep w ev = (w, []).
Proof.
  intros Hoff Hnone. destruct ev as [| |n o]; simpl.
  - unfold toggleCamera. simpl. by rewrite Hoff.
  - unfold toggleScreenShare. simpl. by rewrite Hoff.
  - by rewrite Hnone.
Qed.

(** X1: while the session is not active, and no request is suspended,
    no sequence of clicks on the camera and screen buttons changes any
    cell or ref or calls anything, and neither does the microphone
    button. *)
Theorem inactive_session_ignores_buttons (c : Component)
    (evs : list StudioEvent) (o : MicOutcome) :
  isSessionActive c = false →
  studioRun {| ui := c; inflight := [] |} evs
    = ({| ui := c; inflight := [] |}, []) ∧
  microphoneButton o c = (c, []).
Proof.
  intros Hoff. split.
  - induction evs as [|ev evs IH]; [done|]. simpl.
    rewrite studioStep_inactive by done. by rewrite IH.
  - unfold microphoneButton, toggleMicrophone. by rewrite Hoff.
Qed.

(** Before Start is pressed every button is inert. *)
Lemma inactive_session_ignores_buttons_witness :
  isSessionActive initialComponent = false ∧
  studioRun {| ui := initialComponent; inflight := [] |}
    [ClickCamera; ClickScreen; Settle 0 (Granted 1 1); ClickCamera]
    = ({| ui := initialComponent; inflight := [] |}, []).
Proof.
  split; [reflexivity|].
  exact (proj1 (inactive_session_ignores_buttons initialComponent
                  [ClickCamera; ClickScreen; Settle 0 (Granted 1 1);
                   ClickCamera] MicGranted eq_refl)).
Defined.

Lemma tidy_unhurried (t : Toggle) (w : Studio) :
  inflight w = [] → tidy (ui w) →
  inflight (studioRun w (unhurried t)).1 = [] ∧
  tidy (ui (studioRun w (unhurried t)).1).
Proof.
  destruct w as [c inf]. simpl. intros -> (Hoff & Hvideo & Hstream & Hframe).
  destruct c as [a m ca sc an st tr cu sp ms ac pr fi vs].
  unfold bothOn in Hoff. simpl in *. subst vs.
  assert (Hms : ∀ s : Stream, is_Some (Some s)) by (intros; by eexists).
  assert (Hfi : ∀ i : positive, is_Some (Some i)) by (intros; by eexists).
  assert (Hn : ∀ A, ¬ is_Some (@None A)) by (intros A [x Hx]; discriminate).
  destruct t as [[s i|]|[s i|]], a, ca, sc, ms as [s0|], fi as [i0|];
    try discriminate Hoff;
    try (exfalso; by (apply (Hn Stream), Hstream));
    try (exfalso; by (apply (Hn Stream), Hframe));
    try (exfalso; by (apply (Hn positive), Hframe));
    try (exfalso; by (destruct Hstream as [Hs _]; specialize (Hs (Hms s0))));
    (split; [reflexivity|]); unfold tidy; cbn;
    repeat split; intros; try done; try by eexists.
Qed.

(** X2: toggles of camera and screen taken one at a time, each
    request settling (granted or denied) before the next click, keep
    flags and capture handles in step: never both flags up; a stream
    is held, attached to the video element and sampled by a frame
    interval exactly when one flag is up. *)
Theorem unhurried_toggles_stay_tidy (ts : list Toggle) (w : Studio) :
  inflight w = [] → tidy (ui w) →
  inflight (studioRun w (concat (map unhurried ts))).1 = [] ∧
  tidy (ui (studioRun w (concat (map unhurried ts))).1).
Proof.
  revert w. induction ts as [|t ts IH]; intros w Hin Htidy; [done|].
  simpl concat. rewrite studioRun_app. simpl.
  destruct (tidy_unhurried t w Hin Htidy) as [Hin' Htidy'].
  by apply IH.
Qed.

(** Camera on, switch to screen, screen off again. *)
Lemma unhurried_toggles_stay_tidy_witness :
  let w := {| ui := connected; inflight := [] |} in
  let ts := [CameraButton (Granted 1 1); ScreenButton (Granted 2 2);
             ScreenButton Denied] in
  inflight w = [] ∧ tidy (ui w) ∧
  tidy (ui (studioRun w (concat (map unhurried ts))).1).
Proof.
  intros w ts.
  assert (Htidy : tidy (ui w)).
  { unfold tidy; cbn. repeat split; try done; intros [x Hx]; discriminate. }
  split; [reflexivity|]. split; [exact Htidy|].
  exact (proj2 (unhurried_toggles_stay_tidy ts w eq_refl Htidy)).
Defined.

(** X3: with the session active and the camera off, a refused camera
    request leaves the camera flag down and changes only the status
    line, apart from what the click itself did before asking: it took
    the screen flag down and released the stream and interval held
    for the screen.  The microphone and session flags are untouched. *)
Theorem camera_refusal (c : Component) :
  isSessionActive c = true → isCameraOn c = false →
  let r := studioRun {| ui := c; inflight := [] |}
             [ClickCamera; Settle 0 Denied] in
  r.2 = option_list (TrackStop <$> mediaStreamRef c)
        ++ option_list (ClearInterval <$> frameIntervalRef c)
        ++ [RequestMedia camera] ∧
  r.1 = {| ui := setStatus "camera access denied or failed."
                   (setIsScreenOn false (stopAllStreams c).1);
           inflight := [] |} ∧
  isCameraOn (ui r.1) = false ∧ isScreenOn (ui r.1) = false ∧
  mediaStreamRef (ui r.1) = None ∧ frameIntervalRef (ui r.1) = None ∧
  isMicOn (ui r.1) = isMicOn c ∧ isSessionActive (ui r.1) = true.
Proof.
  destruct c as [a m ca sc an st tr cu sp ms ac pr fi vs]. simpl.
  intros -> ->. by destruct sc, ms, fi.
Qed.

(** A refused camera request while the screen is being shared. *)
Lemma camera_refusal_witness :
  let c := startMediaStream_settle screen (Granted 7 3) connected in
  let r := studioRun {| ui := c; inflight := [] |}
             [ClickCamera; Settle 0 Denied] in
  isSessionActive c = true ∧ isCameraOn c = false ∧
  r.2 = [TrackStop 7; ClearInterval 3; RequestMedia camera] ∧
  isScreenOn (ui r.1) = false.
Proof.
  intros c r.
  pose proof (camera_refusal c eq_refl eq_refl) as (He & _ & _ & Hs & _).
  split; [reflexivity|]. split; [reflexivity|].
  split; [exact He|exact Hs].
Defined.

(** X4: with the session active and the microphone off, the
    microphone button, once granted, raises the flag and holds a
    script processor and an open audio context, calling nothing; the
    next press disconnects the processor, closes the context, clears
    both refs and takes the flag down, and touches nothing else but
    the status line.  A refusal changes only the status line. *)
Theorem microphone_button_round_trip (c : Component) :
  isSessionActive c = true → isMicOn c = false →
  let on := microphoneButton MicGranted c in
  let off := microphoneButton MicGranted on.1 in
  on.2 = [] ∧ isMicOn on.1 = true ∧
  scriptProcessorRef on.1 = true ∧ audioContextRef on.1 = Some true ∧
  off.2 = [ProcessorDisconnect; AudioContextClose] ∧
  off.1 = setStatus "Microphone off."
            (assign_audioContextRef None (assign_scriptProcessorRef false c)) ∧
  microphoneButton MicDenied c
    = (setStatus "Microphone access denied." c, []).
Proof.
  destruct c as [a m ca sc an st tr cu sp ms ac pr fi vs]. simpl.
  by intros -> ->.
Qed.

Lemma microphone_button_round_trip_witness :
  isSessionActive connected = true ∧ isMicOn connected = false ∧
  (microphoneButton MicGranted
     (microphoneButton MicGranted connected).1).2
    = [ProcessorDisconnect; AudioContextClose].
Proof.
  split; [reflexivity|]. split; [reflexivity|].
  exact (proj1 (proj2 (proj2 (proj2 (proj2
    (microphone_button_round_trip connected eq_refl eq_refl)))))).
Defined.

(** ** The channel going away *)

(** X5: the callbacks of a session started while [isSessionActive]
    was false (the only render that shows the Start button) keep
    seeing it false: when the channel closes or fails they write the
    status line and nothing else, so no stream is released, no flag
    is lowered and no summary is made. *)
Theorem channel_loss_only_sets_status (e : SummaryEnv)
    (c c' : Component) (type : string) :
  isSessionActive c = false →
  onclose e (render c) c' = (setStatus "Connection closed." c', []) ∧
  onerror e (render c) type c' = (setStatus ("Error: " +:+ type) c', []).
Proof.
  intros Hoff. unfold onclose, onerror. simpl. by rewrite Hoff.
Qed.

(** A session started from the first render, camera on, channel
    closing: the camera's stream stays held. *)
Lemma channel_loss_only_sets_status_witness :
  let e := {| API_KEY := Some "key"; isoNow := ""; localNow := "";
              generate := GenerateThrows |} in
  let c' := startMediaStream_settle camera (Granted 1 1) connected in
  isSessionActive initialComponent = false ∧
  mediaStreamRef (onclose e (render initialComponent) c').1 = Some 1%nat ∧
  (onclose e (render initialComponent) c').2 = [].
Proof.
  intros e c'. split; [reflexivity|].
  rewrite (proj1 (channel_loss_only_sets_status e initialComponent c' ""
                    eq_refl)).
  split; reflexivity.
Defined.

(** ** Teardown, further properties *)

(** The release calls of a stop, and the cells and refs it leaves. *)
Lemma stopSession_releases (e : SummaryEnv) (k : Closure)
    (c : Component) :
  let r := stopSession e k c in
  filter releases r.2
    = option_list (TrackStop <$> mediaStreamRef c)
      ++ option_list (ClearInterval <$> frameIntervalRef c)
      ++ match sessionPromiseRef c with
         | Some Fulfilled => [SessionClose]
         | _ => []
         end
      ++ (if scriptProcessorRef c then [ProcessorDisconnect] else [])
      ++ match audioContextRef c with
         | Some true => [AudioContextClose]
         | _ => []
         end ∧
  idle r.1 = true ∧ videoSrcObject r.1 = None ∧
  isSessionActive r.1 = false ∧ isMicOn r.1 = false ∧
  isCameraOn r.1 = false ∧ isScreenOn r.1 = false ∧
  isAnnotating r.1 = false ∧
  transcription r.1 = [] ∧ currentSpokenText r.1 = emptyTurn.
Proof.
  intros r. split.
  - subst r. destruct c as [a m ca sc an st tr cu sp ms ac pr fi vs].
    unfold stopSession.
    destruct ms, fi, sp as [[|]|], pr, ac as [[|]|]; cbn;
      by destruct (generateAndSaveSummary e (finalTranscription k)).
  - subst r. rewrite stopSession_state.
    by destruct (audioContextRef c) as [[|]|].
Qed.

(** ** Summaries, further properties *)

(** X7: with a transcription that is not empty and an API key, a
    stop hands exactly one record to [onSessionEnd] whatever the
    remote call and the parsing of its reply do; the record carries
    the two renderings of the clock and its title is never empty. *)
Theorem summary_always_surfaces (e : SummaryEnv) (full : list Turn) :
  full ≠ [] → hasApiKey e = true →
  ∃ s, generateAndSaveSummary e full = Some s ∧
       id s = isoNow e ∧ date s = localNow e ∧ truthy (title s) = true ∧
       ∀ (k : Closure) (c : Component),
         finalTranscription k = full →
         sessionEnds (stopSession e k c).2 = [s].
Proof.
  intros Hfull Hkey.
  destruct (generateAndSaveSummary e full) as [s|] eqn:Hs.
  - exists s. split; [done|].
    assert (Hshape : id s = isoNow e ∧ date s = localNow e ∧
                     truthy (title s) = true).
    { unfold generateAndSaveSummary in Hs. rewrite Hkey in Hs.
      destruct full as [|t full]; [done|]. simpl in Hs.
      destruct (generate e) as [|text [|pt ps]]; injection Hs as <-;
        simpl; try done.
      repeat split. unfold or_else. by destruct (truthy pt) eqn:Hpt. }
    destruct Hshape as (Hid & Hdate & Htitle). repeat split; try done.
    intros k c Hk. by rewrite sessionEnds_stopSession, Hk, Hs.
  - apply generateAndSaveSummary_skipped in Hs as [Hs|Hs]; [done|].
    by rewrite Hkey in Hs.
Qed.

(** A reply that parses to an empty title still gets a title. *)
Lemma summary_always_surfaces_witness :
  let e := {| API_KEY := Some "key"; isoNow := "i"; localNow := "l";
              generate := GenerateReturns "raw" (Parsed "" "") |} in
  let full := [{| user := "hi"; model := "" |}] in
  full ≠ [] ∧ hasApiKey e = true ∧
  ∃ s, generateAndSaveSummary e full = Some s ∧ truthy (title s) = true.
Proof.
  intros e full.
  assert (Hfull : full ≠ []) by discriminate.
  split; [exact Hfull|]. split; [reflexivity|].
  destruct (summary_always_surfaces e full Hfull eq_refl)
    as (s & Hs & _ & _ & Ht & _).
  exists s. by split.
Defined.

Lemma notifyApp_stopSession (e : SummaryEnv) (k : Closure) (c : Component)
    (a : App) :
  notifyApp (stopSession e k c).2 a
  = match generateAndSaveSummary e (finalTranscription k) with
    | Some s => handleSessionEnd s a
    | None => a
    end.
Proof.
  unfold notifyApp. rewrite sessionEnds_stopSession.
  by destruct (generateAndSaveSummary e (finalTranscription k)).
Qed.

(** X8: when a stop has a transcription and a key, the application
    gains one summary after all earlier ones, switches to the
    summaries view, and that view, freshly mounted, selects the new
    summary and lists it first; when the transcription is empty or
    the key is missing the application is left exactly as it was. *)
Theorem stop_reaches_the_summaries_view (e : SummaryEnv) (k : Closure)
    (c : Component) (a : App) :
  let a' := notifyApp (stopSession e k c).2 a in
  (finalTranscription k ≠ [] → hasApiKey e = true →
   ∃ s, generateAndSaveSummary e (finalTranscription k) = Some s ∧
        summaries a' = summaries a ++ [s] ∧
        renderActiveFeature a' = SessionSummariesView (summaries a ++ [s]) ∧
        selectLatest (summaries a') None = Some s ∧
        sideList (summaries a') = s :: sideList (summaries a)) ∧
  (finalTranscription k = [] ∨ hasApiKey e = false → a' = a).
Proof.
  intros a'. subst a'. rewrite notifyApp_stopSession. split.
  - intros Hfull Hkey.
    destruct (generateAndSaveSummary e (finalTranscription k)) as [s|] eqn:Hs.
    + exists s. split; [done|]. split; [done|]. split; [done|]. split.
      * unfold selectLatest, handleSessionEnd. simpl.
        rewrite length_app, Nat.add_1_r. simpl. apply last_snoc.
      * unfold sideList, handleSessionEnd. simpl. apply reverse_snoc.
    + apply generateAndSaveSummary_skipped in Hs as [Hs|Hs]; [done|].
      by rewrite Hkey in Hs.
  - intros Hskip. apply generateAndSaveSummary_skipped in Hskip.
    by rewrite Hskip.
Qed.

(** The first session of an application, summarizer failing. *)
Lemma stop_reaches_the_summaries_view_witness :
  let e := {| API_KEY := Some "key"; isoNow := "i"; localNow := "l";
              generate := GenerateThrows |} in
  let c := appendUserDelta "hi" connected in
  finalTranscription (render c) ≠ [] ∧ hasApiKey e = true ∧
  activeFeature (notifyApp (clickStop e c).2 initialApp) = FEATURE_SUMMARIES ∧
  length (summaries (notifyApp (clickStop e c).2 initialApp)) = 1%nat.
Proof.
  intros e c.
  assert (Hfull : finalTranscription (render c) ≠ []) by discriminate.
  split; [exact Hfull|]. split; [reflexivity|].
  destruct (proj1 (stop_reaches_the_summaries_view e (render c) c initialApp)
              Hfull eq_refl) as (s & _ & Hsum & _).
  split; [reflexivity|]. unfold clickStop. by rewrite Hsum.
Defined.

(** ** Playback scheduler, further properties *)

(** Chunks handled one after the other by [deliver]: the second of
    two consecutive chunks starts where the first ends when it
    arrives no later than that end, and at its own clock reading when
    it arrives later. *)
Lemma consecutive_chunks_are_gapless (k : Closure)
    (chunks : list (Q * Q)) (c : Component) (p : Playback)
    (i : nat) (now d now' d' s s' : Q) :
  let starts := scheduledStarts (deliver k (audioChunks chunks) c p).2 in
  chunks !! i = Some (now, d) → chunks !! S i = Some (now', d') →
  starts !! i = Some s → starts !! S i = Some s' →
  ((now' <= s + d)%Q → (s' == s + d)%Q) ∧
  ((s + d <= now')%Q → (s' == now')%Q).
Proof.
  intros starts Hi Hi' Hs Hs'.
  destruct (starts_audio_lookup k chunks c p i now d Hi) as [Hs0 Hc].
  destruct (starts_audio_lookup k chunks c p (S i) now' d' Hi') as [Hs1 _].
  fold starts in Hs0, Hs1. rewrite Hs in Hs0. rewrite Hs' in Hs1.
  injection Hs0 as ->. injection Hs1 as ->. rewrite Hc. split; intros Hle.
  - by apply Q.max_l.
  - by apply Q.max_r.
Qed.

(** A second chunk arriving while the first still plays. *)
Lemma consecutive_chunks_are_gapless_witness :
  let chunks := [(0, 1); (1 # 5, 1 # 2)]%Q in
  let starts :=
    scheduledStarts
      (deliver (render initialComponent) (audioChunks chunks)
         initialComponent initialPlayback).2 in
  starts !! 0%nat = Some 0%Q ∧ starts !! 1%nat = Some 1%Q ∧
  ((1 # 5 <= 0 + 1)%Q → (1 == 0 + 1)%Q).
Proof.
  intros chunks starts. split; [reflexivity|]. split; [reflexivity|].
  exact (proj1 (consecutive_chunks_are_gapless (render initialComponent)
                  chunks initialComponent initialPlayback 0
                  0%Q 1%Q (1 # 5)%Q (1 # 2)%Q 0%Q 1%Q
                  eq_refl eq_refl eq_refl eq_refl)).
Defined.



(** X11: a message whose audio cannot be decoded schedules nothing
    and calls nothing; the handler ends at the decoder, so an
    [interrupted] in the same message is not acted on and the active
    sources stay as they were.  The transcript parts of the message,
    handled before the audio, are applied as usual. *)
Theorem undecodable_audio_ends_the_handler (k : Closure) (now : Q)
    (m : ServerMessage) (c : Component) (p : Playback) :
  inlineAudio m = Undecodable →
  let r := onmessage k now m c p in
  r.2 = [] ∧
  sources (playbackAfter r) = sources p ∧
  created (playbackAfter r) = created p ∧
  nextStartTime (playbackAfter r) = Qmax (nextStartTime p) now ∧
  r.1.1 = (onmessage k now
             {| outputTranscription := outputTranscription m;
                inputTranscription := inputTranscription m;
                turnComplete := turnComplete m;
                inlineAudio := NoAudio;
                interrupted := false |} c p).1.1.
Proof.
  intros Hm r. subst r. unfold onmessage, playbackAfter. rewrite Hm.
  by cbn.
Qed.

(** An interruption riding on a chunk that cannot be decoded: the
    source that was playing keeps playing. *)
Lemma undecodable_audio_ends_the_handler_witness :
  let m := {| outputTranscription := None; inputTranscription := None;
              turnComplete := false; inlineAudio := Undecodable;
              interrupted := true |} in
  let p := {| nextStartTime := 3; sources := [0%nat]; created := 1 |} in
  inlineAudio m = Undecodable ∧
  (onmessage (render initialComponent) 1 m initialComponent p).2 = [] ∧
  sources (playbackAfter
             (onmessage (render initialComponent) 1 m initialComponent p))
    = [0%nat].
Proof.
  intros m p. split; [reflexivity|].
  destruct (undecodable_audio_ends_the_handler (render initialComponent)
              1%Q m initialComponent p eq_refl) as (He & Hs & _).
  split; [exact He|exact Hs].
Defined.

Lemma started_app (es es' : list Effect) :
  started (es ++ es') = started es ++ started es'.
Proof. apply omap_app. Qed.

Lemma stopped_app (es es' : list Effect) :
  stopped (es ++ es') = stopped es ++ stopped es'.
Proof. apply omap_app. Qed.

Lemma stopped_stops (l : list Handle) : stopped (map SourceStop l) = l.
Proof. induction l as [|h l IH]; [done|]. simpl. by rewrite IH. Qed.

Lemma started_stops (l : list Handle) : started (map SourceStop l) = [].
Proof. induction l as [|h l IH]; [done|]. by simpl. Qed.

Lemma accounted_refl (p : Playback) : known p → accounted p [] p.
Proof.
  intros Hp. unfold accounted. simpl.
  split; [done|]. split; [lia|]. split; [|split; [apply NoDup_nil_2|split]].
  - intros h Hin. by apply not_elem_of_nil in Hin.
  - intros h Hin. by apply not_elem_of_nil in Hin.
  - intros h Hin. split; [by left|apply not_elem_of_nil].
Qed.

Lemma accounted_trans (p p1 p2 : Playback) (e1 e2 : list Effect) :
  accounted p e1 p1 → accounted p1 e2 p2 → accounted p (e1 ++ e2) p2.
Proof.
  intros (Hk1 & Hc1 & Hst1 & Hnd1 & Hsp1 & Hsrc1)
         (Hk2 & Hc2 & Hst2 & Hnd2 & Hsp2 & Hsrc2).
  assert (Hapart : ∀ h, h ∈ stopped e1 → h ∈ stopped e2 → False).
  { intros h H1 H2. destruct (Hsp2 h H2) as [_ [Hin|Hin]].
    - by destruct (Hsrc1 h Hin) as [_ Hno].
    - destruct (Hsp1 h H1) as [Hlt _]. destruct (Hst2 h Hin) as [Hge _]. lia. }
  split; [done|]. split; [lia|].
  rewrite started_app, stopped_app. split; [|split; [|split]].
  - intros h [Hin|Hin]%elem_of_app.
    + specialize (Hst1 h Hin). lia.
    + specialize (Hst2 h Hin). lia.
  - apply NoDup_app. split; [done|]. split; [|done].
    intros h H1 H2. by apply (Hapart h).
  - intros h [Hin|Hin]%elem_of_app.
    + destruct (Hsp1 h Hin) as [Hlt Hor]. split; [lia|].
      destruct Hor as [Hor|Hor]; [by left|].
      right. apply elem_of_app. by left.
    + destruct (Hsp2 h Hin) as [Hlt Hor]. split; [done|].
      destruct Hor as [Hor|Hor].
      * destruct (Hsrc1 h Hor) as [[Hp|Hs] _]; [by left|].
        right. apply elem_of_app. by left.
      * right. apply elem_of_app. by right.
  - intros h Hin. destruct (Hsrc2 h Hin) as [Hor Hno2]. split.
    + destruct Hor as [Hor|Hor].
      * destruct (Hsrc1 h Hor) as [[Hp|Hs] _]; [by left|].
        right. apply elem_of_app. by left.
      * right. apply elem_of_app. by right.
    + intros [H1|H2]%elem_of_app; [|done].
      destruct Hor as [Hor|Hor].
      * by destruct (Hsrc1 h Hor) as [_ Hno].
      * destruct (Hsp1 h H1) as [Hlt _]. destruct (Hst2 h Hor) as [Hge _]. lia.
Qed.

Lemma enqueue_sources (d now : Q) (p : Playback) :
  known p → sources (enqueue d now p).1 = sources p ++ [created p].
Proof.
  intros [_ Hlt]. simpl. unfold set_add.
  rewrite bool_decide_eq_false_2; [done|].
  intros Hin. specialize (Hlt _ Hin). lia.
Qed.

Lemma accounted_enqueue (d now : Q) (p : Playback) :
  known p → accounted p (enqueue d now p).2 (enqueue d now p).1.
Proof.
  intros Hp. pose proof (enqueue_sources d now p Hp) as Hsrc.
  destruct Hp as [Hnd Hlt]. unfold accounted, known. rewrite Hsrc. simpl.
  split; [split|].
  - apply NoDup_app. split; [done|]. split; [|apply NoDup_singleton].
    intros h Hin ->%list_elem_of_singleton. specialize (Hlt _ Hin). lia.
  - intros h [Hin| ->%list_elem_of_singleton]%elem_of_app; [|lia].
    specialize (Hlt _ Hin). lia.
  - split; [lia|]. split; [|split; [apply NoDup_nil_2|split]].
    + intros h ->%list_elem_of_singleton. lia.
    + intros h Hin. by apply not_elem_of_nil in Hin.
    + intros h Hin. split; [|apply not_elem_of_nil].
      apply elem_of_app in Hin as [Hin|Hin]; [by left|by right].
Qed.

Lemma accounted_interrupt (p : Playback) :
  known p → accounted p (interrupt p).2 (interrupt p).1.
Proof.
  intros [Hnd Hlt]. unfold accounted, known.
  rewrite interrupt_empties, interrupt_stops_all, stopped_stops, started_stops.
  simpl. split; [split; [apply NoDup_nil_2|]|].
  - intros h Hin. by apply not_elem_of_nil in Hin.
  - split; [lia|]. split; [|split; [done|split]].
    + intros h Hin. by apply not_elem_of_nil in Hin.
    + intros h Hin. split; [by apply Hlt|by left].
    + intros h Hin. by apply not_elem_of_nil in Hin.
Qed.

Lemma accounted_ended (h0 : Handle) (p : Playback) :
  known p → accounted p [] (ended h0 p).
Proof.
  intros [Hnd Hlt]. unfold accounted, known. simpl.
  split; [split|].
  - by apply NoDup_filter.
  - intros h [Hin _]%set_delete_subset. by apply Hlt.
  - split; [lia|]. split; [|split; [apply NoDup_nil_2|split]].
    + intros h Hin. by apply not_elem_of_nil in Hin.
    + intros h Hin. by apply not_elem_of_nil in Hin.
    + intros h [Hin _]%set_delete_subset. split; [by left|apply not_elem_of_nil].
Qed.

Lemma known_enqueue (d now : Q) (p : Playback) :
  known p → known (enqueue d now p).1.
Proof. intros Hp. by destruct (accounted_enqueue d now p Hp). Qed.

Lemma onmessage_accounted (k : Closure) (now : Q) (m : ServerMessage)
    (c : Component) (p : Playback) :
  known p →
  accounted p (onmessage k now m c p).2 (playbackAfter (onmessage k now m c p)).
Proof.
  intros Hp. unfold onmessage, playbackAfter.
  destruct (inlineAudio m) as [| |d]; cbn [fst snd].
  - destruct (interrupted m); cbn [fst snd].
    + destruct (interrupt p) as [p2 e2] eqn:Hint. cbn [fst snd].
      pose proof (accounted_interrupt p Hp) as Hacc. by rewrite Hint in Hacc.
    + by apply accounted_refl.
  - by apply (accounted_refl p).
  - destruct (enqueue d now p) as [p1 e1] eqn:Henq.
    pose proof (accounted_enqueue d now p Hp) as Hacc1.
    pose proof (known_enqueue d now p Hp) as Hp1.
    rewrite Henq in Hacc1, Hp1. cbn [fst snd] in *.
    destruct (interrupted m); cbn [fst snd].
    + destruct (interrupt p1) as [p2 e2] eqn:Hint. cbn [fst snd].
      pose proof (accounted_interrupt p1 Hp1) as Hacc2.
      rewrite Hint in Hacc2. by apply (accounted_trans p p1 p2).
    + by rewrite app_nil_r.
Qed.

Lemma sessionRun_accounted (k : Closure) (evs : list SessionEvent)
    (c : Component) (p : Playback) :
  known p →
  accounted p (sessionRun k evs c p).2 (playbackAfter (sessionRun k evs c p)).
Proof.
  revert c p. induction evs as [|[now m|h0] evs IH]; intros c p Hp.
  - by apply accounted_refl.
  - cbn [sessionRun].
    pose proof (onmessage_accounted k now m c p Hp) as Hacc1.
    destruct (onmessage k now m c p) as [[c1 p1] e1].
    unfold playbackAfter in *. cbn [fst snd] in *.
    assert (Hp1 : known p1) by by destruct Hacc1.
    specialize (IH c1 p1 Hp1).
    destruct (sessionRun k evs c1 p1) as [[c2 p2] e2]. cbn [fst snd] in *.
    by apply (accounted_trans p p1 p2).
  - cbn [sessionRun].
    pose proof (accounted_ended h0 p Hp) as Hacc1.
    assert (Hp1 : known (ended h0 p)) by by destruct Hacc1.
    specialize (IH c (ended h0 p) Hp1).
    by apply (accounted_trans p (ended h0 p) _ [] _).
Qed.

(** X12: over any sequence of messages and completions of a session,
    no source is force-stopped twice, only sources that were started
    are stopped, and the set of active sources holds, without
    repetition, only sources that were started and never stopped. *)
Theorem active_sources_are_accounted_for (k : Closure)
    (evs : list SessionEvent) (c : Component) :
  let r := sessionRun k evs c initialPlayback in
  NoDup (stopped r.2) ∧
  (∀ h, h ∈ stopped r.2 → h ∈ started r.2) ∧
  NoDup (sources (playbackAfter r)) ∧
  (∀ h, h ∈ sources (playbackAfter r) → h ∈ started r.2 ∧ h ∉ stopped r.2).
Proof.
  intros r.
  assert (Hinit : known initialPlayback).
  { split; [apply NoDup_nil_2|]. intros h Hin. by apply not_elem_of_nil in Hin. }
  destruct (sessionRun_accounted k evs c initialPlayback Hinit)
    as ([Hnd _] & _ & _ & Hnds & Hsp & Hsrc).
  fold r in Hnd, Hnds, Hsp, Hsrc.
  split; [done|]. split; [|split; [done|]].
  - intros h Hin. destruct (Hsp h Hin) as [_ [Hno|Hs]]; [|done].
    by apply not_elem_of_nil in Hno.
  - intros h Hin. destruct (Hsrc h Hin) as [[Hno|Hs] Hns]; [|done].
    by apply not_elem_of_nil in Hno.
Qed.

(** ** Transcript, further properties *)

(** X13: inbound messages and completions never alter or drop a turn
    already committed: the transcription at the start is a prefix of
    the transcription at the end, and exactly one turn is added for
    each message that carries [turnComplete]. *)
Theorem committed_turns_only_grow (k : Closure) (evs : list SessionEvent)
    (c : Component) (p : Playback) :
  let r := sessionRun k evs c p in
  transcription c `prefix_of` transcription r.1.1 ∧
  length (transcription r.1.1)
    = (length (transcription c) + turnsCompleted evs)%nat.
Proof.
  revert c p. induction evs as [|[now m|h0] evs IH]; intros c p.
  - simpl. split; [done|lia].
  - cbn [sessionRun turnsCompleted].
    pose proof (onmessage_transcription k now m c p) as Hstep.
    destruct (onmessage k now m c p) as [[c1 p1] e1].
    specialize (IH c1 p1).
    destruct (sessionRun k evs c1 p1) as [[c2 p2] e2].
    cbn [fst snd] in *. destruct IH as [Hpre Hlen]. split.
    + etrans; [|exact Hpre]. rewrite Hstep. by apply prefix_app_r.
    + rewrite Hlen, Hstep, length_app.
      destruct (turnComplete m); simpl; lia.
  - cbn [sessionRun turnsCompleted]. apply IH.
Qed.

(** X14: until a [TurnComplete] arrives, the live buffer holds for
    each speaker that speaker's deltas joined in arrival order, so two
    runs of messages that give each speaker the same text leave the
    same buffer, however the two speakers' deltas are interleaved or
    cut into pieces. *)
Theorem live_buffer_ignores_interleaving (k : Closure)
    (ms ms' : list (Q * ServerMessage)) (c : Component) (p p' : Playback) :
  Forall (λ m, turnComplete m.2 = false) ms →
  Forall (λ m, turnComplete m.2 = false) ms' →
  userDeltas ms = userDeltas ms' → modelDeltas ms = modelDeltas ms' →
  currentSpokenText (deliver k ms c p).1.1
    = {| user := user (currentSpokenText c) +:+ userDeltas ms;
         model := model (currentSpokenText c) +:+ modelDeltas ms |} ∧
  currentSpokenText (deliver k ms c p).1.1
    = currentSpokenText (deliver k ms' c p').1.1.
Proof.
  intros Hms Hms' Hu Hm.
  rewrite (deliver_buffer k ms c p Hms), (deliver_buffer k ms' c p' Hms').
  by rewrite Hu, Hm.
Qed.

Lemma live_buffer_ignores_interleaving_witness :
  let ms := [(0%Q, InputTranscriptDelta "a");
             (0%Q, OutputTranscriptDelta "x");
             (0%Q, InputTranscriptDelta "b")] in
  let ms' := [(0%Q, OutputTranscriptDelta "x");
              (0%Q, InputTranscriptDelta "ab")] in
  Forall (λ m, turnComplete m.2 = false) ms ∧
  Forall (λ m, turnComplete m.2 = false) ms' ∧
  currentSpokenText
    (deliver (render initialComponent) ms connected initialPlayback).1.1
    = {| user := "ab"; model := "x" |}.
Proof.
  intros ms ms'.
  assert (Hms : Forall (λ m, turnComplete m.2 = false) ms)
    by (repeat constructor).
  assert (Hms' : Forall (λ m, turnComplete m.2 = false) ms')
    by (repeat constructor).
  split; [exact Hms|]. split; [exact Hms'|].
  exact (proj1 (live_buffer_ignores_interleaving (render initialComponent)
                  ms ms' connected initialPlayback initialPlayback
                  Hms Hms' eq_refl eq_refl)).
Defined.

(** ** Shared image, further properties *)

(** X15: as long as the component holds no session promise, images
    handed over are never sent, and the slot keeps the latest one;
    and when the promise held is one that rejects, the effect empties
    the slot without sending the image. *)
Theorem image_waits_for_a_session (h : Host) (evs : list HostEvent) :
  sessionPromiseRef (live h) = None →
  Forall (λ ev, match ev with
                | Change c => sessionPromiseRef c = None
                | _ => True
                end) evs →
  (hostRun h evs).2 = [] ∧
  sharedImage (hostRun h evs).1
    = last (option_list (sharedImage h) ++ handedOver evs) ∧
  ∀ (img : SharedImage) (c : Component),
    sharedImageEffect
      {| sharedImage := Some img;
         live := assign_sessionPromiseRef (Some Rejected) c |}
    = ({| sharedImage := None;
          live := assign_sessionPromiseRef (Some Rejected) c |}, []).
Proof.
  intros Hnone Hevs.
  cut ((hostRun h evs).2 = [] ∧
       sharedImage (hostRun h evs).1
         = last (option_list (sharedImage h) ++ handedOver evs)).
  { intros [He Hs]. by repeat split. }
  revert h Hnone. induction Hevs as [|ev evs Hev _ IH]; intros h Hnone.
  - simpl. split; [done|]. rewrite app_nil_r. by destruct (sharedImage h).
  - cbn [hostRun]. destruct ev as [img| |c]; cbn [hostStep handedOver omap].
    + specialize (IH {| sharedImage := Some img; live := live h |} Hnone).
      destruct (hostRun _ evs) as [h2 e2]. cbn [fst snd] in *.
      destruct IH as [-> ->]. split; [done|].
      change (handedOver (Share img :: evs)) with (img :: handedOver evs).
      by rewrite last_app_cons.
    + rewrite sharedImageEffect_without_session by done.
      specialize (IH h Hnone). destruct (hostRun h evs) as [h2 e2].
      cbn [fst snd] in *. by destruct IH as [-> ->].
    + specialize (IH {| sharedImage := sharedImage h; live := c |} Hev).
      destruct (hostRun _ evs) as [h2 e2]. cbn [fst snd] in *.
      by destruct IH as [-> ->].
Qed.

(** Two images handed over before any session exists. *)
Lemma image_waits_for_a_session_witness :
  let a := {| data := "a"; mimeType := "image/png" |} in
  let b := {| data := "b"; mimeType := "image/png" |} in
  let h := {| sharedImage := None; live := initialComponent |} in
  let evs := [Share a; RunEffect; Share b; RunEffect] in
  sessionPromiseRef (live h) = None ∧
  (hostRun h evs).2 = [] ∧ sharedImage (hostRun h evs).1 = Some b.
Proof.
  intros a b h evs. split; [reflexivity|].
  assert (Hevs : Forall (λ ev, match ev with
                               | Change c => sessionPromiseRef c = None
                               | _ => True
                               end) evs) by (repeat constructor).
  destruct (image_waits_for_a_session h evs eq_refl Hevs) as (He & Hs & _).
  split; [exact He|exact Hs].
Defined.

(** ** Data URLs *)

Lemma append_cons (a : ascii) (s t : string) :
  String a s +:+ t = String a (s +:+ t).
Proof. reflexivity. Qed.

Lemma splitComma_commaFree (s : string) :
  commaFree s = true → splitComma s = [s].
Proof.
  induction s as [|a s IH]; [done|]. cbn [commaFree splitComma].
  intros [Ha Hs]%andb_true_iff. apply negb_true_iff in Ha.
  by rewrite Ha, (IH Hs).
Qed.

Lemma splitComma_header (header rest : string) :
  commaFree header = true →
  splitComma (header +:+ String ","%char rest) = header :: splitComma rest.
Proof.
  induction header as [|a header IH]; [done|].
  cbn [commaFree]. intros [Ha Hs]%andb_true_iff. apply negb_true_iff in Ha.
  rewrite append_cons. cbn [splitComma]. by rewrite Ha, (IH Hs).
Qed.

(** X16: for a data URL, a header without comma followed by a comma
    and a payload without comma, [split(',')[1]] is exactly the
    payload; for a string without any comma it is undefined. *)
Theorem base64Payload_of_data_url (header payload : string) :
  commaFree header = true → commaFree payload = true →
  base64Payload (header +:+ "," +:+ payload) = Some payload ∧
  base64Payload header = None.
Proof.
  intros Hh Hp. unfold base64Payload. split.
  - change ("," +:+ payload) with (String ","%char payload).
    by rewrite splitComma_header, splitComma_commaFree.
  - by rewrite splitComma_commaFree.
Qed.

Lemma base64Payload_of_data_url_witness :
  commaFree "data:image/jpeg;base64" = true ∧ commaFree "/9j/4AAQ" = true ∧
  base64Payload "data:image/jpeg;base64,/9j/4AAQ" = Some "/9j/4AAQ".
Proof.
  split; [reflexivity|]. split; [reflexivity|].
  exact (proj1 (base64Payload_of_data_url "data:image/jpeg;base64"
                  "/9j/4AAQ" eq_refl eq_refl)).
Defined.

(** ** Teardown and playback *)

(** X17: a stop never reaches the playback scheduler: it starts no
    source and stops none, so audio already scheduled keeps playing
    after the session has been stopped. *)
Theorem stop_never_touches_playback (e : SummaryEnv) (k : Closure)
    (c : Component) :
  stopped (stopSession e k c).2 = [] ∧ started (stopSession e k c).2 = [].
Proof.
  destruct c as [a m ca sc an st tr cu sp ms ac pr fi vs].
  unfold stopSession.
  destruct ms, fi, sp as [[|]|], pr, ac as [[|]|]; cbn;
    by destruct (generateAndSaveSummary e (finalTranscription k)).
Qed.

(** ** Handler runs that overlap *)

(** A handler run that nothing overlaps is its two halves, one after
    the other. *)
Lemma onmessage_splits (k : Closure) (now : Q) (m : ServerMessage)
    (c : Component) (p : Playback) :
  onmessage k now m c p
  = let '(c1, p1, e1, s) := onmessage_begin k now m c p in
    match s with
    | Some s =>
        let (p2, e2) := onmessage_resume s p1 in (c1, p2, e1 ++ e2)
    | None => (c1, p1, e1)
    end.
Proof.
  unfold onmessage, onmessage_begin, onmessage_resume, enqueue.
  destruct (inlineAudio m) as [| |d], (interrupted m); reflexivity.
Qed.

(** Messages handled without overlap are [deliver]. *)
Lemma overlappedRun_unoverlapped (k : Closure)
    (ms : list (Q * ServerMessage)) (c : Component) (p : Playback) :
  overlappedRun k (unoverlapped ms) (settled c p)
  = (settled (deliver k ms c p).1.1 (deliver k ms c p).1.2,
     (deliver k ms c p).2).
Proof.
  revert c p. induction ms as [|[now m] ms IH]; intros c p; [done|].
  change (unoverlapped ((now, m) :: ms))
    with (Arrival now m :: Resumption 0 :: unoverlapped ms).
  cbn [overlappedRun overlappedStep deliver settled page player waiting].
  rewrite (onmessage_splits k now m c p).
  destruct (onmessage_begin k now m c p) as [[[c1 p1] e1] [s|]];
    cbn [app page player waiting].
  - change (option_list (Some s)) with [s].
    change ([s] !! 0%nat) with (Some s).
    change (delete 0%nat [s]) with (@nil Suspended). cbv beta iota.
    destruct (onmessage_resume s p1) as [p2 e2].
    fold (settled c1 p2). rewrite IH.
    destruct (deliver k ms c1 p2) as [[c3 p3] e3]. cbn [fst snd].
    by rewrite app_assoc.
  - change (option_list (@None Suspended)) with (@nil Suspended).
    change ((@nil Suspended) !! 0%nat) with (@None Suspended). cbv beta iota.
    fold (settled c1 p1). rewrite IH.
    destruct (deliver k ms c1 p1) as [[c3 p3] e3]. by cbn [fst snd app].
Qed.

Lemma scheduledStarts_app (es es' : list Effect) :
  scheduledStarts (es ++ es') = scheduledStarts es ++ scheduledStarts es'.
Proof. apply omap_app. Qed.

Lemma scheduledStarts_stops (l : list Handle) :
  scheduledStarts (map SourceStop l) = [].
Proof. induction l as [|h l IH]; [done|]. by simpl. Qed.

Lemma scheduledStarts_begin (k : Closure) (now : Q) (m : ServerMessage)
    (c : Component) (p : Playback) :
  scheduledStarts (onmessage_begin k now m c p).1.2 = [].
Proof.
  unfold onmessage_begin. destruct (inlineAudio m); [|done|done].
  destruct (interrupted m); [|done]. cbn. apply scheduledStarts_stops.
Qed.

Lemma scheduledStarts_resume (s : Suspended) (p : Playback) :
  scheduledStarts (onmessage_resume s p).2 = [nextStartTime p].
Proof.
  unfold onmessage_resume. cbn.
  destruct (thenInterrupted s); [|done]. cbn. f_equal.
  apply scheduledStarts_stops.
Qed.

(** The starts passed to [source.start] are those of the timeline. *)
Lemma scheduledStarts_timeline (k : Closure) (evs : list HandlerEvent)
    (st : Overlapped) :
  scheduledStarts (overlappedRun k evs st).2 = (timeline k evs st).*1.
Proof.
  revert st. induction evs as [|ev evs IH]; intros st; [done|].
  cbn [overlappedRun timeline].
  destruct (overlappedStep k st ev) as [st1 e1] eqn:Hstep.
  specialize (IH st1).
  destruct (overlappedRun k evs st1) as [st2 e2]. cbn [fst snd] in *.
  rewrite scheduledStarts_app, fmap_app, IH. f_equal.
  destruct ev as [now m|n]; cbn [overlappedStep] in Hstep.
  - pose proof (scheduledStarts_begin k now m (page st) (player st)) as Hb.
    destruct (onmessage_begin k now m (page st) (player st))
      as [[[c1 p1] e1'] s]. by injection Hstep as <- <-.
  - destruct (waiting st !! n) as [s|].
    + pose proof (scheduledStarts_resume s (player st)) as Hr.
      destruct (onmessage_resume s (player st)) as [p1 e1'].
      by injection Hstep as <- <-.
    + by injection Hstep as <- <-.
Qed.

(** In a stream of audio chunks, whatever the order of arrivals and
    resumptions, the first buffer still to be started starts no
    earlier than the cursor, and each buffer started starts no
    earlier than the end of the one started before it. *)
Lemma chunk_timeline_chain (k : Closure) (evs : list ChunkEvent)
    (st : Overlapped) :
  Forall (λ s, thenInterrupted s = false) (waiting st) →
  let tl := timeline k (chunkEvents evs) st in
  (∀ s d, tl !! 0%nat = Some (s, d) → (nextStartTime (player st) <= s)%Q) ∧
  (∀ j s d s' d',
     tl !! j = Some (s, d) → tl !! S j = Some (s', d') → (s + d <= s')%Q).
Proof.
  revert st. induction evs as [|[now d0|n] evs IH]; intros st Hw.
  - split; intros; discriminate.
  - cbn [chunkEvents map timeline app]. fold (chunkEvents evs).
    set (st1 := (overlappedStep k st (Arrival now (AudioChunk d0))).1).
    assert (Hw1 : Forall (λ s, thenInterrupted s = false) (waiting st1)).
    { subst st1. cbn. apply Forall_app. split; [done|]. by repeat constructor. }
    destruct (IH st1 Hw1) as [Hhead Hchain]. split; [|done].
    intros s d Hs. specialize (Hhead s d Hs).
    assert (nextStartTime (player st) <= nextStartTime (player st1))%Q
      by (subst st1; cbn; apply Q.le_max_l).
    lra.
  - cbn [chunkEvents map timeline]. fold (chunkEvents evs).
    cbn [overlappedStep].
    destruct (waiting st !! n) as [s0|] eqn:Hn; [|by apply IH].
    assert (Hs0 : thenInterrupted s0 = false)
      by (by eapply (Forall_lookup_1 _ _ _ _ Hw)).
    unfold onmessage_resume. rewrite Hs0. cbn [enqueue_resume fst snd].
    set (st1 := {| page := page st; player := _; waiting := _ |}).
    assert (Hw1 : Forall (λ s, thenInterrupted s = false) (waiting st1))
      by (subst st1; cbn; by apply Forall_delete).
    destruct (IH st1 Hw1) as [Hhead Hchain]. split.
    + intros s d [= <- <-]. apply Qle_refl.
    + intros [|j] s d s' d'; cbn.
      * intros [= <- <-] Hs'. by apply (Hhead s' d').
      * apply Hchain.
Qed.

(** A chunk whose run resumes before anything else happens: it starts
    at the larger of the cursor it found and its clock reading. *)
Lemma unoverlapped_chunk (k : Closure) (st : Overlapped) (now d : Q) :
  let r1 := overlappedRun k
              (chunkEvents [ChunkArrives now d;
                            ChunkResumes (length (waiting st))]) st in
  r1.2 = [SourceStart (created (player st))
            (Qmax (nextStartTime (player st)) now)] ∧
  nextStartTime (player r1.1)
    = (Qmax (nextStartTime (player st)) now + d)%Q ∧
  waiting r1.1 = waiting st.
Proof.
  cbn [chunkEvents map overlappedRun overlappedStep onmessage_begin
       AudioChunk outputTranscription inputTranscription turnComplete
       inlineAudio interrupted option_list page player waiting].
  set (s0 := {| awaited := d; thenInterrupted := false |}).
  change (option_list (Some s0)) with [s0].
  rewrite list_lookup_middle by done.
  rewrite delete_middle, app_nil_r. by cbn.
Qed.

(** C2, as the code has it: for every interleaving of the arrivals of
    audio chunks and the resumptions of their handler runs, with every
    choice of clock readings, taking the chunks in the order in which
    they are started: the starts passed to [source.start] are the
    cursor as it is at each resumption; each start is at least the
    start before it plus that chunk's duration; and, durations being
    non-negative, the starts never decrease.  A chunk whose run
    resumes before anything else happens starts at [max(cursor,
    clock)] and moves the cursor to that start plus its duration. *)
Theorem overlapped_chunks_never_overlap (k : Closure)
    (evs : list ChunkEvent) (c : Component) (p : Playback) :
  let r := overlappedRun k (chunkEvents evs) (settled c p) in
  let tl := timeline k (chunkEvents evs) (settled c p) in
  scheduledStarts r.2 = tl.*1 ∧
  (∀ j s d s' d',
     tl !! j = Some (s, d) → tl !! S j = Some (s', d') → (s + d <= s')%Q) ∧
  (Forall (λ x, 0 <= x.2)%Q tl →
   ∀ j s d s' d',
     tl !! j = Some (s, d) → tl !! S j = Some (s', d') → (s <= s')%Q) ∧
  ∀ (st : Overlapped) (now d : Q),
    let r1 := overlappedRun k
                (chunkEvents [ChunkArrives now d;
                              ChunkResumes (length (waiting st))]) st in
    r1.2 = [SourceStart (created (player st))
              (Qmax (nextStartTime (player st)) now)] ∧
    nextStartTime (player r1.1)
      = (Qmax (nextStartTime (player st)) now + d)%Q ∧
    waiting r1.1 = waiting st.
Proof.
  intros r tl.
  assert (Hchain : ∀ j s d s' d',
     tl !! j = Some (s, d) → tl !! S j = Some (s', d') → (s + d <= s')%Q).
  { by apply (chunk_timeline_chain k evs (settled c p)). }
  split; [apply scheduledStarts_timeline|]. split; [exact Hchain|].
  split; [|apply unoverlapped_chunk].
  intros Hpos j s d s' d' Hs Hs'.
  pose proof (Hchain j s d s' d' Hs Hs') as Hle.
  rewrite Forall_lookup in Hpos. specialize (Hpos j _ Hs). simpl in Hpos.
  lra.
Qed.

(** Two runs that overlap, then resume in arrival order. *)
Lemma overlapped_chunks_never_overlap_witness :
  let evs := [ChunkArrives 0 2; ChunkArrives 5 1;
              ChunkResumes 0; ChunkResumes 0]%Q in
  let st := settled initialComponent initialPlayback in
  let tl := timeline (render initialComponent) (chunkEvents evs) st in
  tl = [(5, 2); (7, 1)]%Q ∧ Forall (λ x, 0 <= x.2)%Q tl ∧
  ∀ j s d s' d',
    tl !! j = Some (s, d) → tl !! S j = Some (s', d') → (s <= s')%Q.
Proof.
  intros evs st tl.
  assert (Hpos : Forall (λ x, 0 <= x.2)%Q tl).
  { repeat constructor; simpl; lra. }
  split; [reflexivity|]. split; [exact Hpos|].
  exact (proj1 (proj2 (proj2
    (overlapped_chunks_never_overlap (render initialComponent) evs
       initialComponent initialPlayback))) Hpos).
Defined.

(** C2, as stated, fails: a chunk of duration 2 arrives at clock 0
    with the cursor at 0, and a second chunk arrives at clock 5 while
    the first is still being decoded.  The first chunk is started at
    5, not at max(0, 0) = 0, and the second at 7. *)
Lemma overlapping_runs_start_at_the_raised_cursor :
  let evs := [ChunkArrives 0 2; ChunkArrives 5 1;
              ChunkResumes 0; ChunkResumes 0]%Q in
  let starts :=
    scheduledStarts
      (overlappedRun (render initialComponent) (chunkEvents evs)
         (settled initialComponent initialPlayback)).2 in
  starts = [5; 7]%Q ∧
  ¬ (∃ s, starts !! 0%nat = Some s ∧
          (s == Qmax (nextStartTime initialPlayback) 0)%Q).
Proof.
  intros evs starts. split; [reflexivity|].
  intros (s & Hs & Heq). injection Hs as <-. vm_compute in Heq. discriminate.
Qed.

(** X9: when the handler runs of a stream of audio chunks do not
    overlap (each chunk is decoded and started before the next one
    arrives), of two consecutive chunks the second starts exactly
    where the first ends when it arrives no later than that end, and
    at its own clock reading when it arrives later. *)
Theorem unoverlapped_chunks_are_gapless (k : Closure)
    (chunks : list (Q * Q)) (c : Component) (p : Playback)
    (i : nat) (now d now' d' s s' : Q) :
  let starts :=
    scheduledStarts
      (overlappedRun k (unoverlapped (audioChunks chunks)) (settled c p)).2 in
  chunks !! i = Some (now, d) → chunks !! S i = Some (now', d') →
  starts !! i = Some s → starts !! S i = Some s' →
  ((now' <= s + d)%Q → (s' == s + d)%Q) ∧
  ((s + d <= now')%Q → (s' == now')%Q).
Proof.
  intros starts. subst starts. rewrite overlappedRun_unoverlapped.
  cbn [snd]. apply consecutive_chunks_are_gapless.
Qed.

(** A second chunk arriving while the first still plays. *)
Lemma unoverlapped_chunks_are_gapless_witness :
  let chunks := [(0, 1); (1 # 5, 1 # 2)]%Q in
  let starts :=
    scheduledStarts
      (overlappedRun (render initialComponent)
         (unoverlapped (audioChunks chunks))
         (settled initialComponent initialPlayback)).2 in
  starts !! 0%nat = Some 0%Q ∧ starts !! 1%nat = Some 1%Q ∧
  ((1 # 5 <= 0 + 1)%Q → (1 == 0 + 1)%Q).
Proof.
  intros chunks starts. split; [reflexivity|]. split; [reflexivity|].
  exact (proj1 (unoverlapped_chunks_are_gapless (render initialComponent)
                  chunks initialComponent initialPlayback 0
                  0%Q 1%Q (1 # 5)%Q (1 # 2)%Q 0%Q 1%Q
                  eq_refl eq_refl eq_refl eq_refl)).
Defined.

(** ** Leaving the page *)

(** C4 on the code: a connected session has heard the user say "hi"
    and no [TurnComplete] has come, so the buffer is not empty and a
    press on Stop hands the turn to the summarizer.  When instead the
    component is unmounted, the cleanup hands nothing to the
    summarizer and empties the buffer: the turn is lost.  When the
    channel is closed by the remote side, nothing is handed over
    either. *)
Theorem unmount_drops_pending_turn :
  let e := {| API_KEY := Some "key"; isoNow := "i"; localNow := "l";
              generate := GenerateThrows |} in
  let c := appendUserDelta "hi" connected in
  flushPending (currentSpokenText c) = Some {| user := "hi"; model := "" |} ∧
  sessionEnds (unmountCleanup e c).2 = [] ∧
  currentSpokenText (unmountCleanup e c).1 = emptyTurn ∧
  (onclose e (render initialComponent) c).2 = [] ∧
  sessionEnds (clickStop e c).2
    = [{| id := "i"; title := "Session Log (Summary Failed)";
          content := transcriptText [{| user := "hi"; model := "" |}];
          date := "l" |}].
Proof. by vm_compute. Qed.

(** ** The shared-image effect as React schedules it *)

Lemma sharedImageEffect_empty_slot (c : Component) :
  sharedImageEffect {| sharedImage := None; live := c |}
  = ({| sharedImage := None; live := c |}, []).
Proof. reflexivity. Qed.

(** What one event sends: nothing, or the image it hands over. *)
Lemma pageStep_delivered (h : Host) (ev : PageEvent) :
  delivered (pageStep h ev).2 `sublist_of` handedOverTo [ev].
Proof.
  destruct ev as [[d m]|c|]; cbn [pageStep handedOverTo omap].
  - unfold sharedImageEffect. cbn [sharedImage live].
    destruct (sessionPromiseRef (live h)) as [[|]|] eqn:Hp; cbn;
      rewrite ?Hp; cbn; try done. all: by apply sublist_nil_l.
  - done.
  - unfold sharedImageEffect. cbn. by destruct (sharedImage h).
Qed.

Lemma delivered_pageRun (h : Host) (evs : list PageEvent) :
  delivered (pageRun h evs).2 `sublist_of` handedOverTo evs.
Proof.
  revert h. induction evs as [|ev evs IH]; intros h; [done|].
  cbn [pageRun]. pose proof (pageStep_delivered h ev) as Hstep.
  destruct (pageStep h ev) as [h1 e1]. specialize (IH h1).
  destruct (pageRun h1 evs) as [h2 e2]. cbn [fst snd] in *.
  rewrite delivered_app.
  change (handedOverTo (ev :: evs)) with (handedOverTo ([ev] ++ evs)).
  unfold handedOverTo at 1. rewrite omap_app. by apply sublist_app.
Qed.

(** C6, as the code has it: an image handed over while the component
    holds the promise of a session that connects is sent once, in
    that same step, and the slot is empty afterwards; and over any
    sequence of hand-overs, changes of the component and remounts, the
    images sent are a subsequence of the images handed over, so no
    hand-over reaches the channel twice. *)
Theorem shared_image_sent_on_hand_over (h : Host) (evs : list PageEvent) :
  (∀ (img : SharedImage) (c : Component),
     pageStep
       {| sharedImage := sharedImage h;
          live := assign_sessionPromiseRef (Some Fulfilled) c |}
       (HandOver img)
     = ({| sharedImage := None;
           live := assign_sessionPromiseRef (Some Fulfilled) c |},
        [SendRealtimeInput (data img) (mimeType img)])) ∧
  delivered (pageRun h evs).2 `sublist_of` handedOverTo evs.
Proof.
  split; [done|]. apply delivered_pageRun.
Qed.

(** C6, as stated, fails: an image is handed over before Start is
    pressed, and the session then starts and connects.  The image is
    in the slot while the session exists, and it has not been sent;
    nor is it sent when the component changes again. *)
Lemma image_handed_over_before_start_is_not_sent :
  let a := {| data := "a"; mimeType := "image/png" |} in
  let h := {| sharedImage := None; live := initialComponent |} in
  let r := pageRun h [HandOver a; Becomes connected;
                      Becomes (setIsMicOn true connected)] in
  sharedImage r.1 = Some a ∧
  sessionPromiseRef (live r.1) = Some Fulfilled ∧
  delivered r.2 = [] ∧ delivered r.2 ≠ [a].
Proof. repeat split. discriminate. Qed.

(** ** Teardown, what the refs hold *)

(** X6: from any component state, a stop releases what the component's
    refs hold, each once, in the order media stream, frame interval,
    channel (when the connection was established), script processor,
    open audio context, and makes no other release call: the only
    stream it stops is the one in [mediaStreamRef].  Afterwards those
    refs are clear, every flag is down and both transcript cells are
    empty. *)
Theorem stop_releases_what_the_refs_hold (e : SummaryEnv) (k : Closure)
    (c : Component) :
  let r := stopSession e k c in
  filter releases r.2
    = option_list (TrackStop <$> mediaStreamRef c)
      ++ option_list (ClearInterval <$> frameIntervalRef c)
      ++ match sessionPromiseRef c with
         | Some Fulfilled => [SessionClose]
         | _ => []
         end
      ++ (if scriptProcessorRef c then [ProcessorDisconnect] else [])
      ++ match audioContextRef c with
         | Some true => [AudioContextClose]
         | _ => []
         end ∧
  (∀ s, TrackStop s ∈ r.2 → mediaStreamRef c = Some s) ∧
  idle r.1 = true ∧ videoSrcObject r.1 = None ∧
  isSessionActive r.1 = false ∧ isMicOn r.1 = false ∧
  isCameraOn r.1 = false ∧ isScreenOn r.1 = false ∧
  isAnnotating r.1 = false ∧
  transcription r.1 = [] ∧ currentSpokenText r.1 = emptyTurn.
Proof.
  intros r.
  destruct (stopSession_releases e k c) as [Hrel Hstate]. fold r in Hrel, Hstate.
  split; [exact Hrel|]. split; [|exact Hstate].
  intros s Hin.
  assert (Hf : TrackStop s ∈ filter releases r.2)
    by (apply list_elem_of_filter; by split).
  rewrite Hrel in Hf.
  destruct (mediaStreamRef c) as [s0|], (frameIntervalRef c),
    (sessionPromiseRef c) as [[|]|], (scriptProcessorRef c),
    (audioContextRef c) as [[|]|]; cbn in Hf;
    repeat (apply elem_of_cons in Hf as [Hf|Hf]; [try discriminate Hf|]);
    try (by apply not_elem_of_nil in Hf); by injection Hf as ->.
Qed.
